(** * Silence-gated audio relay: a shallow embedding of [audio_handler.py]

    The Python module relays 16 kHz mono 16-bit PCM received over a
    websocket back to the sender while speech is present, and writes the
    whole received stream to a WAV file when the connection ends.

    Python integers are [Z]; Python floats are the kernel's binary64
    floats ([PrimFloat.float]), whose operations are the IEEE 754 ones that
    CPython uses; [bytes] objects are lists of [Byte.byte]; [str] objects
    are [String.string].  An exception is an explicit result. *)

From Stdlib Require Import ZArith List Bool Lia Floats Uint63 String Ascii ListSet.
From Stdlib.Strings Require Import Byte.
Import ListNotations.
Open Scope Z_scope.

(** ** Module-level constants (lines 10-23) *)

Definition SAMPLE_RATE : Z := 16000.
Definition CHANNELS : Z := 1.
Definition SAMPLE_WIDTH : Z := 2.
Definition BYTES_PER_SAMPLE : Z := CHANNELS * SAMPLE_WIDTH.
Definition BYTES_PER_SECOND : Z := SAMPLE_RATE * BYTES_PER_SAMPLE.

Definition SILENCE_THRESHOLD : Z := 800.
Definition MAX_SILENCE_SECONDS : float := 1%float.

Definition OUTPUT_DIR : string := "received_audio".

(** ** Python values and built-ins used by the module *)

Definition bytes := list byte.

(** [len(x)] *)
Definition len {A : Type} (x : list A) : Z := Z.of_nat (List.length x).

(** [x[lo:hi]] for [0 <= lo <= hi]; like Python, the slice is cut short at
    the end of [x]. *)
Definition slice {A : Type} (x : list A) (lo hi : Z) : list A :=
  firstn (Z.to_nat (hi - lo)) (skipn (Z.to_nat lo) x).

(** [range(n)] *)
Definition range (n : Z) : list Z := map Z.of_nat (seq 0 (Z.to_nat n)).

(** Exceptions.  [Exc] are the subclasses of [Exception], which
    [except Exception] catches; [BaseExc] are the others
    ([asyncio.CancelledError], [KeyboardInterrupt]), which it lets through. *)
Inductive exception : Type :=
  | ConnectionClosedOK
  | ConnectionClosedError
  | OtherException (name : string).

Inductive raised : Type :=
  | Exc (e : exception)
  | BaseExc (name : string).

Inductive result (A : Type) : Type :=
  | Return (a : A)
  | Raise (e : raised).
Arguments Return {A} a.
Arguments Raise {A} e.

(** [float(z)] for an integer [z]; exact below [2^53] in magnitude, which
    covers every length and sample value the module handles. *)
Definition float_of_Z (z : Z) : float :=
  if z <? 0 then PrimFloat.opp (PrimFloat.of_uint63 (Uint63.of_Z (- z)))
  else PrimFloat.of_uint63 (Uint63.of_Z z).

(** [a / b] on two integers (true division): the quotient of the two
    integers as floats, correctly rounded. *)
Definition true_div (a b : Z) : float :=
  PrimFloat.div (float_of_Z a) (float_of_Z b).

(** [struct.unpack('<h', sample_bytes)[0]]: a signed little-endian 16-bit
    integer out of exactly two bytes; [struct.error] otherwise. *)
Definition struct_unpack_h (sample_bytes : bytes) : result Z :=
  match sample_bytes with
  | [b0; b1] =>
      let u := Z.of_N (Byte.to_N b0) + 256 * Z.of_N (Byte.to_N b1) in
      Return (if u <? 32768 then u else u - 65536)
  | _ => Raise (Exc (OtherException "struct.error"))
  end.

(** ** [is_chunk_silent_max_abs] (lines 27-45) *)

(** The [for i in range(num_samples)] loop, threading [max_amplitude]. *)
Fixpoint max_abs_loop (pcm_chunk_bytes : bytes) (indices : list Z)
    (max_amplitude : Z) : result Z :=
  match indices with
  | [] => Return max_amplitude
  | i :: rest =>
      let sample_bytes :=
        slice pcm_chunk_bytes (i * SAMPLE_WIDTH) ((i + 1) * SAMPLE_WIDTH) in
      match struct_unpack_h sample_bytes with
      | Raise e => Raise e
      | Return sample_val =>
          max_abs_loop pcm_chunk_bytes rest
            (if Z.abs sample_val >? max_amplitude then Z.abs sample_val
             else max_amplitude)
      end
  end.

Definition is_chunk_silent_max_abs (pcm_chunk_bytes : bytes) (threshold : Z)
    : result bool :=
  match pcm_chunk_bytes with
  | [] => Return true
  | _ :: _ =>
      let num_samples := len pcm_chunk_bytes / SAMPLE_WIDTH in
      match max_abs_loop pcm_chunk_bytes (range num_samples) 0 with
      | Raise e => Raise e
      | Return max_amplitude => Return (max_amplitude <? threshold)
      end
  end.

(** ** [is_chunk_silent_rms] (lines 48-71), the alternative classifier *)

Fixpoint rms_loop (pcm_chunk_bytes : bytes) (indices : list Z)
    (sum_squares : float) : result float :=
  match indices with
  | [] => Return sum_squares
  | i :: rest =>
      let sample_bytes :=
        slice pcm_chunk_bytes (i * SAMPLE_WIDTH) ((i + 1) * SAMPLE_WIDTH) in
      match struct_unpack_h sample_bytes with
      | Raise e => Raise e
      | Return sample_val =>
          let normalized_sample :=
            PrimFloat.div (float_of_Z sample_val) 32767%float in
          rms_loop pcm_chunk_bytes rest
            (PrimFloat.add sum_squares
               (PrimFloat.mul normalized_sample normalized_sample))
      end
  end.

Definition is_chunk_silent_rms (pcm_chunk_bytes : bytes)
    (threshold_rms_normalized : float) : result bool :=
  match pcm_chunk_bytes with
  | [] => Return true
  | _ :: _ =>
      let num_samples := len pcm_chunk_bytes / SAMPLE_WIDTH in
      if num_samples =? 0 then Return true
      else
        match rms_loop pcm_chunk_bytes (range num_samples) (float_of_Z 0) with
        | Raise e => Raise e
        | Return sum_squares =>
            let rms :=
              PrimFloat.sqrt
                (PrimFloat.div sum_squares (float_of_Z num_samples)) in
            Return (PrimFloat.ltb rms threshold_rms_normalized)
        end
  end.

(** ** The samples of a chunk, for stating properties

    [samples c] lists the complete 16-bit little-endian samples of [c] in
    order, leaving out an incomplete trailing byte; [max_abs_amplitude c]
    is their largest magnitude, 0 when there is none. *)

Definition sample_of (b0 b1 : byte) : Z :=
  let u := Z.of_N (Byte.to_N b0) + 256 * Z.of_N (Byte.to_N b1) in
  if u <? 32768 then u else u - 65536.

Fixpoint samples (c : bytes) : list Z :=
  match c with
  | b0 :: b1 :: rest => sample_of b0 b1 :: samples rest
  | _ => []
  end.

Definition max_abs_amplitude (c : bytes) : Z :=
  fold_left (fun m v => Z.max m (Z.abs v)) (samples c) 0.

(** The chunk cut down to its largest whole-sample prefix. *)
Definition whole_samples_prefix (c : bytes) : bytes :=
  firstn (Z.to_nat (SAMPLE_WIDTH * (len c / SAMPLE_WIDTH))) c.

(** ** The world around one connection *)

(** A websocket message is a [bytes] object or a [str]. *)
Inductive message : Type :=
  | Binary (b : bytes)
  | Text (s : string).

(** One step of [async for message in websocket]: the message delivered,
    and what [await websocket.send(...)] does if the handler calls it while
    processing that message ([None]: it succeeds). *)
Record frame : Type := {
  payload : message;
  send_raises : option raised
}.

(** A connection: its identity, [str(websocket.remote_address)], the
    messages it delivers, and how the iteration ends once they are used up
    ([None]: the iterator stops, the peer closed normally; [Some e]: the
    iterator raises [e]). *)
Record websocket : Type := {
  ws_id : Z;
  remote_address : string;
  incoming : list frame;
  closes_with : option raised
}.

(** What [print] writes, one constructor per call site. *)
Inductive line : Type :=
  | ClientConnected (client_address filename : string)
  | PausingRelay (client_address : string) (silence_duration : float)
  | ResumingRelay (client_address : string)
  | ReceivedText (client_address message : string)
  | DisconnectedNormally (client_address : string)
  | DisconnectedWithError (client_address : string)
  | ErrorOccurred (client_address : string) (e : exception)
  | RemovedFromConnections (client_address : string)
  | WritingChunks (n : Z) (filename : string)
  | SavedAudio (filename : string)
  | ErrorWritingWav (filename : string) (e : exception)
  | NoAudioData (client_address : string).

(** A WAV file as [wave] writes it: the three header parameters and the
    frames. *)
Record wav_file : Type := {
  nchannels : Z;
  sampwidth : Z;
  framerate : Z;
  wav_frames : bytes
}.

(** Everything outside the handler's local variables: the global
    [CONNECTIONS] set, standard output, the frames sent back over the
    connection, the files written, and (for stating properties) the
    messages the iterator has delivered so far. *)
Record world : Type := {
  CONNECTIONS : set Z;
  stdout : list line;
  sent : list bytes;
  files : list (string * wav_file);
  received : list message
}.

Definition print (l : line) (w : world) : world :=
  {| CONNECTIONS := CONNECTIONS w; stdout := stdout w ++ [l]; sent := sent w;
     files := files w; received := received w |}.

Definition websocket_send (b : bytes) (w : world) : world :=
  {| CONNECTIONS := CONNECTIONS w; stdout := stdout w; sent := sent w ++ [b];
     files := files w; received := received w |}.

Definition wave_write (filename : string) (f : wav_file) (w : world) : world :=
  {| CONNECTIONS := CONNECTIONS w; stdout := stdout w; sent := sent w;
     files := files w ++ [(filename, f)]; received := received w |}.

Definition deliver (m : message) (w : world) : world :=
  {| CONNECTIONS := CONNECTIONS w; stdout := stdout w; sent := sent w;
     files := files w; received := received w ++ [m] |}.

Definition set_connections (c : set Z) (w : world) : world :=
  {| CONNECTIONS := c; stdout := stdout w; sent := sent w;
     files := files w; received := received w |}.

(** ** The output file name (lines 75-78) *)

(** [s.replace(old, new)] for a one-character [old]. *)
Fixpoint str_replace (old : ascii) (new : string) (s : string) : string :=
  match s with
  | EmptyString => EmptyString
  | String c s' =>
      if Ascii.eqb c old then (new ++ str_replace old new s')%string
      else String c (str_replace old new s')
  end.

Definition sanitize (client_address : string) : string :=
  str_replace "," ""
    (str_replace ")" ""
       (str_replace "(" ""
          (str_replace ":" "_" client_address))).

(** [datetime.datetime.now()]: a calendar date and time of day with
    microseconds. *)
Record datetime : Type := {
  year : Z; month : Z; day : Z;
  hour : Z; minute : Z; second : Z;
  microsecond : Z
}.

(** The ranges of the fields, for years that [%Y] prints with four
    digits. *)
Definition valid_datetime (d : datetime) : Prop :=
  1000 <= year d <= 9999 /\ 1 <= month d <= 12 /\ 1 <= day d <= 31 /\
  0 <= hour d <= 23 /\ 0 <= minute d <= 59 /\ 0 <= second d <= 59 /\
  0 <= microsecond d <= 999999.

Definition digit_char (d : Z) : ascii := ascii_of_nat (48 + Z.to_nat d).

(** [n] in decimal on [width] digits, zero-padded, as [%m], [%d], [%H],
    [%M], [%S] (2 digits), [%Y] (4) and [%f] (6) print it. *)
Fixpoint zero_padded (width : nat) (n : Z) : string :=
  match width with
  | O => EmptyString
  | S w => (zero_padded w (n / 10) ++ String (digit_char (n mod 10)) EmptyString)%string
  end.

(** [d.strftime("%Y%m%d_%H%M%S_%f")] *)
Definition strftime (d : datetime) : string :=
  (zero_padded 4 (year d) ++ zero_padded 2 (month d) ++ zero_padded 2 (day d)
   ++ "_" ++ zero_padded 2 (hour d) ++ zero_padded 2 (minute d)
   ++ zero_padded 2 (second d) ++ "_" ++ zero_padded 6 (microsecond d))%string.

(** [os.path.join(a, b)] for a relative [b] on a POSIX system. *)
Definition os_path_join (a b : string) : string := (a ++ "/" ++ b)%string.

Definition output_filename (client_address : string) (now : datetime) : string :=
  let sane_client_address := sanitize client_address in
  let timestamp := strftime now in
  os_path_join OUTPUT_DIR
    ("audio_" ++ sane_client_address ++ "_" ++ timestamp ++ ".wav")%string.

(** ** The handler's local state and the message loop (lines 83-128) *)

Record session : Type := {
  pcm_data_chunks : list bytes;
  current_silence_accumulated_duration : float;
  relaying_audio : bool
}.

Definition initial_session : session :=
  {| pcm_data_chunks := [];
     current_silence_accumulated_duration := 0%float;
     relaying_audio := true |}.

(** Lines 102-116: the silence counter and the relay flag after one chunk. *)
Definition silence_detection (client_address : string) (is_silent_now : bool)
    (chunk_duration_seconds : float) (ss : session) (w : world)
    : session * world :=
  if is_silent_now then
    let duration :=
      PrimFloat.add (current_silence_accumulated_duration ss)
        chunk_duration_seconds in
    if PrimFloat.leb MAX_SILENCE_SECONDS duration then
      if relaying_audio ss then
        ({| pcm_data_chunks := pcm_data_chunks ss;
            current_silence_accumulated_duration := duration;
            relaying_audio := false |},
         print (PausingRelay client_address duration) w)
      else
        ({| pcm_data_chunks := pcm_data_chunks ss;
            current_silence_accumulated_duration := duration;
            relaying_audio := relaying_audio ss |}, w)
    else
      ({| pcm_data_chunks := pcm_data_chunks ss;
          current_silence_accumulated_duration := duration;
          relaying_audio := relaying_audio ss |}, w)
  else
    if negb (relaying_audio ss) then
      ({| pcm_data_chunks := pcm_data_chunks ss;
          current_silence_accumulated_duration := 0%float;
          relaying_audio := true |},
       print (ResumingRelay client_address) w)
    else
      ({| pcm_data_chunks := pcm_data_chunks ss;
          current_silence_accumulated_duration := 0%float;
          relaying_audio := relaying_audio ss |}, w).

(** The body of the [async for] loop for one message; [Some e] when it
    raises [e]. *)
Definition handle_message (client_address : string) (fr : frame)
    (ss : session) (w : world) : session * world * option raised :=
  let w := deliver (payload fr) w in
  match payload fr with
  | Binary message =>
      let ss :=
        {| pcm_data_chunks := pcm_data_chunks ss ++ [message];
           current_silence_accumulated_duration :=
             current_silence_accumulated_duration ss;
           relaying_audio := relaying_audio ss |} in
      let chunk_duration_seconds := true_div (len message) BYTES_PER_SECOND in
      match is_chunk_silent_max_abs message SILENCE_THRESHOLD with
      | Raise e => (ss, w, Some e)
      | Return is_silent_now =>
          let '(ss, w) :=
            silence_detection client_address is_silent_now
              chunk_duration_seconds ss w in
          if relaying_audio ss then
            match send_raises fr with
            | Some e => (ss, w, Some e)
            | None => (ss, websocket_send message w, None)
            end
          else (ss, w, None)
      end
  | Text message =>
      (ss, print (ReceivedText client_address message) w, None)
  end.

(** The whole [async for] loop: it stops at the first exception, or when
    the messages are used up, as the connection then says. *)
Fixpoint receive_loop (client_address : string) (frames : list frame)
    (closing : option raised) (ss : session) (w : world)
    : session * world * option raised :=
  match frames with
  | [] => (ss, w, closing)
  | fr :: rest =>
      match handle_message client_address fr ss w with
      | (ss', w', None) => receive_loop client_address rest closing ss' w'
      | (ss', w', Some e) => (ss', w', Some e)
      end
  end.

(** ** Teardown (the [finally] block, lines 136-153)

    [wave_error] is what the [with wave.open(...)] block does: [None] when
    it completes, [Some e] when it raises [e]. *)
Definition finally_block (ws : websocket) (filename : string)
    (wave_error : option raised) (ss : session) (w : world)
    : world * option raised :=
  let client_address := remote_address ws in
  let w :=
    if set_mem Z.eq_dec (ws_id ws) (CONNECTIONS w)
    then set_connections (set_remove Z.eq_dec (ws_id ws) (CONNECTIONS w)) w
    else w in
  let w := print (RemovedFromConnections client_address) w in
  match pcm_data_chunks ss with
  | [] => (print (NoAudioData client_address) w, None)
  | _ :: _ =>
      let w := print (WritingChunks (len (pcm_data_chunks ss)) filename) w in
      match wave_error with
      | None =>
          let w :=
            wave_write filename
              {| nchannels := CHANNELS; sampwidth := SAMPLE_WIDTH;
                 framerate := SAMPLE_RATE;
                 wav_frames := List.concat (pcm_data_chunks ss) |} w in
          (print (SavedAudio filename) w, None)
      | Some (Exc e_wave) => (print (ErrorWritingWav filename e_wave) w, None)
      | Some (BaseExc name) => (w, Some (BaseExc name))
      end
  end.

(** ** [audio_handler] (lines 74-153)

    It returns the world it leaves behind and the exception that escapes
    it, if any. *)
Definition audio_handler (ws : websocket) (now : datetime)
    (wave_error : option raised) (w : world) : world * option raised :=
  let client_address := remote_address ws in
  let filename := output_filename client_address now in
  let w := print (ClientConnected client_address filename) w in
  let w := set_connections (set_add Z.eq_dec (ws_id ws) (CONNECTIONS w)) w in
  let '(ss, w, r) :=
    receive_loop client_address (incoming ws) (closes_with ws)
      initial_session w in
  let '(w, escaping) :=
    match r with
    | None => (w, None)
    | Some (Exc ConnectionClosedOK) =>
        (print (DisconnectedNormally client_address) w, None)
    | Some (Exc ConnectionClosedError) =>
        (print (DisconnectedWithError client_address) w, None)
    | Some (Exc e) => (print (ErrorOccurred client_address e) w, None)
    | Some (BaseExc name) => (w, Some (BaseExc name))
    end in
  let '(w, from_finally) := finally_block ws filename wave_error ss w in
  (w, match from_finally with Some e => Some e | None => escaping end).

(** ** Vocabulary for the properties *)

(** A run on binary chunks only, every send succeeding. *)
Definition binary_frames (chunks : list bytes) : list frame :=
  map (fun c => {| payload := Binary c; send_raises := None |}) chunks.

Definition empty_world : world :=
  {| CONNECTIONS := []; stdout := []; sent := []; files := []; received := [] |}.

Definition run_chunks (chunks : list bytes) : session * world * option raised :=
  receive_loop "client" (binary_frames chunks) None initial_session empty_world.

(** The handler's state after the chunks, and the chunks relayed. *)
Definition session_after (chunks : list bytes) : session :=
  fst (fst (run_chunks chunks)).

Definition relayed (chunks : list bytes) : list bytes :=
  sent (snd (fst (run_chunks chunks))).

(** The classification and the duration the handler computes for a chunk. *)
Definition is_silent (c : bytes) : bool :=
  match c with
  | [] => true
  | _ :: _ => max_abs_amplitude c <? SILENCE_THRESHOLD
  end.

Definition chunk_duration (c : bytes) : float :=
  true_div (len c) BYTES_PER_SECOND.

(** The longest run of silent chunks at the end of a sequence. *)
Fixpoint leading_silent (chunks : list bytes) : list bytes :=
  match chunks with
  | [] => []
  | c :: rest => if is_silent c then c :: leading_silent rest else []
  end.

Definition trailing_silent_run (chunks : list bytes) : list bytes :=
  rev (leading_silent (rev chunks)).

(** The sum of the durations of the chunks, added up in order from 0. *)
Definition total_duration (chunks : list bytes) : float :=
  fold_left (fun acc c => PrimFloat.add acc (chunk_duration c)) chunks 0%float.

(** The binary payloads among messages, in order. *)
Fixpoint binary_payloads (ms : list message) : list bytes :=
  match ms with
  | [] => []
  | Binary b :: rest => b :: binary_payloads rest
  | Text _ :: rest => binary_payloads rest
  end.

(** The handler's local state one chunk later, written out as a function
    of the chunk's classification and duration. *)
Definition next_session (ss : session) (c : bytes) : session :=
  let duration :=
    if is_silent c
    then PrimFloat.add (current_silence_accumulated_duration ss) (chunk_duration c)
    else 0%float in
  {| pcm_data_chunks := pcm_data_chunks ss ++ [c];
     current_silence_accumulated_duration := duration;
     relaying_audio :=
       if is_silent c
       then if PrimFloat.leb MAX_SILENCE_SECONDS duration then false
            else relaying_audio ss
       else true |}.

(** Whether the handler is relaying once chunk number [i] (from 0) of
    [chunks] has been processed, and the chunks for which it is. *)
Definition relaying_after_chunk (chunks : list bytes) (i : nat) : bool :=
  relaying_audio (session_after (firstn (S i) chunks)).

Definition kept_chunks (chunks : list bytes) : list bytes :=
  map snd
    (filter (fun p => relaying_after_chunk chunks (fst p))
       (combine (seq 0 (List.length chunks)) chunks)).

(** The messages the iterator delivered between two worlds. *)
Definition delivered_during (before after : world) : list message :=
  skipn (List.length (received before)) (received after).

(** No [BaseExc] comes out of the connection: neither from a send nor
    from the iterator. *)
Definition is_base_exc (r : option raised) : bool :=
  match r with
  | Some (BaseExc _) => true
  | _ => false
  end.

Definition only_exceptions (ws : websocket) : bool :=
  forallb (fun fr => negb (is_base_exc (send_raises fr))) (incoming ws)
  && negb (is_base_exc (closes_with ws)).

(** [P] holds of the [n] integers from [z] on. *)
Fixpoint all_from (P : Z -> bool) (n : nat) (z : Z) : bool :=
  match n with
  | O => true
  | S n' => P z && all_from P n' (z + 1)
  end.

(** A chunk of [n] bytes lasts less than [MAX_SILENCE_SECONDS]. *)
Definition shorter_than_max_silence (n : Z) : bool :=
  negb (PrimFloat.leb MAX_SILENCE_SECONDS
          (PrimFloat.add 0%float (true_div n BYTES_PER_SECOND))).

(** Chunks of the scenarios: half a second of audio whose largest sample
    magnitude is 50, and a chunk holding a sample of a given magnitude. *)
Definition half_second_quiet (c : bytes) : Prop :=
  len c = 16000 /\ max_abs_amplitude c = 50.

Definition has_amplitude (c : bytes) (a : Z) : Prop :=
  exists v, In v (samples c) /\ Z.abs v = a.

(** 8000 samples of value 50; one sample of value 2000; one second of
    zero samples. *)
Definition quiet_chunk : bytes := List.concat (repeat ["2"%byte; "000"%byte] (Z.to_nat 8000)).
Definition loud_chunk : bytes := ["208"%byte; "007"%byte].
Definition one_second_of_zeros : bytes := repeat "000"%byte (Z.to_nat 32000).

(** Two connections for the examples: one delivers a quiet sample, a text
    message and a loud sample whose send fails because the peer is gone;
    the other delivers text only and then closes. *)
Definition example_now : datetime :=
  {| year := 2024; month := 3; day := 7;
     hour := 9; minute := 5; second := 1; microsecond := 42 |}.

Definition example_connection : websocket :=
  {| ws_id := 1;
     remote_address := "('127.0.0.1', 54321)";
     incoming :=
       [ {| payload := Binary ["001"%byte; "000"%byte]; send_raises := None |};
         {| payload := Text "hello"; send_raises := None |};
         {| payload := Binary loud_chunk;
            send_raises := Some (Exc ConnectionClosedError) |} ];
     closes_with := None |}.

Definition text_only_connection : websocket :=
  {| ws_id := 2;
     remote_address := "('127.0.0.1', 54322)";
     incoming := [ {| payload := Text "ping"; send_raises := None |} ];
     closes_with := Some (Exc ConnectionClosedError) |}.

(** One microsecond after [example_now]. *)
Definition example_later : datetime :=
  {| year := 2024; month := 3; day := 7;
     hour := 9; minute := 5; second := 1; microsecond := 43 |}.

(** The two instants fall within the same second. *)
Definition same_second (d1 d2 : datetime) : Prop :=
  year d1 = year d2 /\ month d1 = month d2 /\ day d1 = day d2 /\
  hour d1 = hour d2 /\ minute d1 = minute d2 /\ second d1 = second d2.

(** The root mean square of the normalised samples of a chunk, as
    [is_chunk_silent_rms] computes it: the squares are added up in order
    from 0. *)
Definition sum_of_squares (c : bytes) : float :=
  fold_left
    (fun sum_squares v =>
       PrimFloat.add sum_squares
         (PrimFloat.mul (PrimFloat.div (float_of_Z v) 32767%float)
            (PrimFloat.div (float_of_Z v) 32767%float)))
    (samples c) (float_of_Z 0).

Definition rms_amplitude (c : bytes) : float :=
  PrimFloat.sqrt (PrimFloat.div (sum_of_squares c) (float_of_Z (len (samples c)))).

(** An eighth and a tenth of a second of zero samples. *)
Definition eighth_second_of_zeros : bytes := repeat "000"%byte (Z.to_nat 4000).
Definition tenth_second_of_zeros : bytes := repeat "000"%byte (Z.to_nat 3200).

(** [l1] is [l2] with some elements left out, the others in order. *)
Inductive subsequence {A : Type} : list A -> list A -> Prop :=
  | subsequence_nil : subsequence [] []
  | subsequence_skip (x : A) (l1 l2 : list A) :
      subsequence l1 l2 -> subsequence l1 (x :: l2)
  | subsequence_keep (x : A) (l1 l2 : list A) :
      subsequence l1 l2 -> subsequence (x :: l1) (x :: l2).

(** What a run on binary chunks prints, and the lines that report the
    relay being paused and resumed. *)
Definition printed (chunks : list bytes) : list line :=
  stdout (snd (fst (run_chunks chunks))).

Definition is_pause_line (l : line) : bool :=
  match l with
  | PausingRelay _ _ => true
  | _ => false
  end.

Definition is_resume_line (l : line) : bool :=
  match l with
  | ResumingRelay _ => true
  | _ => false
  end.

Definition count_lines (p : line -> bool) (ls : list line) : nat :=
  List.length (filter p ls).

(** The characters of a string. *)
Definition chars (s : string) : list ascii := list_ascii_of_string s.

(** A connection whose handler is cancelled after one binary frame. *)
Definition cancelled_connection : websocket :=
  {| ws_id := 3;
     remote_address := "('::1', 54323, 0, 0)";
     incoming := [ {| payload := Binary loud_chunk; send_raises := None |} ];
     closes_with := Some (BaseExc "CancelledError") |}.

(** The characters that [sanitize] takes out of an address. *)
Definition is_unsafe_char (c : ascii) : bool :=
  Ascii.eqb c ":" || Ascii.eqb c "(" || Ascii.eqb c ")" || Ascii.eqb c ",".

(** The same time of day as [example_now], one day later. *)
Definition example_next_day : datetime :=
  {| year := 2024; month := 3; day := 8;
     hour := 9; minute := 5; second := 1; microsecond := 42 |}.

(** The float is zero, positive or [+infinity]: neither negative nor NaN. *)
Definition sf_nonneg (x : spec_float) : bool :=
  match x with
  | S754_zero _ => true
  | S754_infinity s => negb s
  | S754_nan => false
  | S754_finite s _ _ => negb s
  end.

Definition nonneg (x : float) : bool := sf_nonneg (Prim2SF x).

(** * Binary64 facts the relay gate relies on

    The silence counter is a float that only ever has non-negative
    durations added to it.  From the specification of the primitive
    operations ([SpecFloat]): such a sum is never NaN or negative, and
    adding a non-negative float never makes a non-negative float smaller. *)

Module Binary64.
Lemma digits2_pos_bounds (m : positive) :
  2 ^ (Zpos (digits2_pos m) - 1) <= Zpos m < 2 ^ (Zpos (digits2_pos m)).
Proof.
  induction m as [p IH | p IH |]; cbn [digits2_pos].
  - rewrite Pos2Z.inj_succ.
    replace (Z.succ (Zpos (digits2_pos p)) - 1) with (Z.succ (Zpos (digits2_pos p) - 1)) by lia.
    rewrite !Z.pow_succ_r by lia. lia.
  - rewrite Pos2Z.inj_succ.
    replace (Z.succ (Zpos (digits2_pos p)) - 1) with (Z.succ (Zpos (digits2_pos p) - 1)) by lia.
    rewrite !Z.pow_succ_r by lia. lia.
  - cbn. lia.
Qed.

Lemma digits2_pos_unique (m : positive) (d : Z) :
  2 ^ (d - 1) <= Zpos m < 2 ^ d -> Zpos (digits2_pos m) = d.
Proof.
  intros [Hlo Hhi].
  pose proof (digits2_pos_bounds m) as [Blo Bhi].
  assert (0 < d).
  { destruct (Z_lt_le_dec 0 d) as [|Hd]; [assumption|].
    exfalso. destruct (Z.eq_dec d 0) as [->|]; [cbn in Hhi; lia|].
    rewrite Z.pow_neg_r in Hhi by lia. lia. }
  destruct (Z.lt_trichotomy (Zpos (digits2_pos m)) d) as [Hlt | [Heq | Hgt]]; [|assumption|].
  - exfalso.
    assert (2 ^ (Zpos (digits2_pos m)) <= 2 ^ (d - 1)) by (apply Z.pow_le_mono_r; lia).
    lia.
  - exfalso.
    assert (2 ^ d <= 2 ^ (Zpos (digits2_pos m) - 1)) by (apply Z.pow_le_mono_r; lia).
    lia.
Qed.

Lemma iter_pos_nat {A} (f : A -> A) (p : positive) (x : A) :
  iter_pos f p x = Nat.iter (Pos.to_nat p) f x.
Proof.
  revert x. induction p as [p IH | p IH |]; intro x; cbn [iter_pos].
  - rewrite !IH, Pos2Nat.inj_xI.
    replace (S (2 * Pos.to_nat p)) with (Pos.to_nat p + S (Pos.to_nat p))%nat by lia.
    rewrite Nat.iter_add, Nat.iter_succ_r. reflexivity.
  - rewrite !IH, Pos2Nat.inj_xO.
    replace (2 * Pos.to_nat p)%nat with (Pos.to_nat p + Pos.to_nat p)%nat by lia.
    rewrite Nat.iter_add. reflexivity.
  - reflexivity.
Qed.

Lemma shr_1_m (r : shr_record) :
  0 <= shr_m r -> shr_m (shr_1 r) = shr_m r / 2.
Proof.
  destruct r as [m r s]. cbn [shr_m]. intro H.
  destruct m as [| [p | p |] | p]; cbn [shr_1 shr_m].
  - reflexivity.
  - rewrite Pos2Z.inj_xI. apply Z.div_unique with (r := 1); lia.
  - rewrite Pos2Z.inj_xO. apply Z.div_unique with (r := 0); lia.
  - reflexivity.
  - lia.
Qed.

Lemma shr_iter_m (n : nat) (r : shr_record) :
  0 <= shr_m r ->
  shr_m (Nat.iter n shr_1 r) = shr_m r / 2 ^ Z.of_nat n.
Proof.
  intro H. induction n as [| n IH].
  - cbn. now rewrite Z.div_1_r.
  - rewrite Nat.iter_succ, shr_1_m.
    + rewrite IH. rewrite Nat2Z.inj_succ, Z.pow_succ_r by lia.
      rewrite Z.div_div by (try apply Z.pow_pos_nonneg; lia).
      f_equal. lia.
    + rewrite IH. apply Z.div_pos; [assumption | apply Z.pow_pos_nonneg; lia].
Qed.

Lemma shr_spec (m : Z) (l : location) (e n : Z) :
  0 <= m ->
  exists mrs,
    shr (shr_record_of_loc m l) e n = (mrs, e + Z.max n 0) /\
    shr_m mrs = m / 2 ^ (Z.max n 0) /\
    (n <= 0 -> mrs = shr_record_of_loc m l).
Proof.
  intro Hm.
  assert (Hrec : shr_m (shr_record_of_loc m l) = m)
    by (destruct l as [| []]; reflexivity).
  destruct n as [| p | p]; cbn [shr].
  - exists (shr_record_of_loc m l). split; [f_equal; lia|].
    split; [|reflexivity]. rewrite Hrec. cbn. now rewrite Z.div_1_r.
  - eexists; split; [|split].
    + reflexivity.
    + rewrite iter_pos_nat, shr_iter_m by (rewrite Hrec; assumption).
      rewrite Hrec, positive_nat_Z. reflexivity.
    + lia.
  - exists (shr_record_of_loc m l). split; [f_equal; lia|].
    split; [|reflexivity]. rewrite Hrec. cbn. now rewrite Z.div_1_r.
Qed.

Lemma fexp_eq (e : Z) : fexp prec emax e = Z.max (e - 53) (-1074).
Proof. reflexivity. Qed.

Lemma round_nearest_even_bounds (m : Z) (l : location) :
  m <= round_nearest_even m l <= m + 1.
Proof.
  destruct l as [| []]; cbn [round_nearest_even]; try lia.
  destruct (Z.even m); lia.
Qed.

Lemma shr_fexp_spec (m : Z) (e : Z) (l : location) :
  0 <= m ->
  exists mrs,
    shr_fexp prec emax m e l = (mrs, e + Z.max (fexp prec emax (Zdigits2 m + e) - e) 0) /\
    shr_m mrs = m / 2 ^ (Z.max (fexp prec emax (Zdigits2 m + e) - e) 0) /\
    (fexp prec emax (Zdigits2 m + e) - e <= 0 -> mrs = shr_record_of_loc m l).
Proof.
  intro Hm. unfold shr_fexp. apply shr_spec. assumption.
Qed.

(** Rounding a non-negative mantissa never yields NaN and keeps the sign. *)
Lemma binary_round_aux_sign (s : bool) (m e : Z) (l : location) :
  0 <= m ->
  binary_round_aux prec emax s m e l = S754_zero s \/
  binary_round_aux prec emax s m e l = S754_infinity s \/
  exists m' e', binary_round_aux prec emax s m e l = S754_finite s m' e'.
Proof.
  intro Hm. unfold binary_round_aux.
  destruct (shr_fexp_spec m e l Hm) as (mrs1 & -> & Hm1 & _).
  assert (H1 : 0 <= shr_m mrs1).
  { rewrite Hm1. apply Z.div_pos; [assumption | apply Z.pow_pos_nonneg; lia]. }
  pose proof (round_nearest_even_bounds (shr_m mrs1) (loc_of_shr_record mrs1)) as Hr.
  set (m2 := round_nearest_even (shr_m mrs1) (loc_of_shr_record mrs1)) in *.
  assert (H2 : 0 <= m2) by lia.
  destruct (shr_fexp_spec m2 (e + Z.max (fexp prec emax (Zdigits2 m + e) - e) 0) loc_Exact H2)
    as (mrs2 & -> & Hm2 & _).
  assert (H3 : 0 <= shr_m mrs2).
  { rewrite Hm2. apply Z.div_pos; [assumption | apply Z.pow_pos_nonneg; lia]. }
  destruct (shr_m mrs2) as [| p | p].
  - now left.
  - right. destruct (_ <=? _); [right; eauto | now left].
  - lia.
Qed.

Lemma pow2_lt_inv (a b : Z) : 0 <= a -> 2 ^ a < 2 ^ b -> a < b.
Proof.
  intros Ha H. destruct (Z_lt_le_dec a b) as [|Hle]; [assumption|].
  exfalso. destruct (Z_lt_le_dec b 0).
  - rewrite (Z.pow_neg_r 2 b) in H by assumption.
    pose proof (Z.pow_pos_nonneg 2 a ltac:(lia) Ha). lia.
  - assert (2 ^ b <= 2 ^ a) by (apply Z.pow_le_mono_r; lia). lia.
Qed.

Lemma digits2_pos_pos (m : positive) : 0 < Zpos (digits2_pos m).
Proof. lia. Qed.

Lemma digits_scaled_le (mx M : positive) (k : Z) :
  0 <= k -> Zpos mx * 2 ^ k <= Zpos M ->
  Zpos (digits2_pos mx) + k <= Zpos (digits2_pos M).
Proof.
  intros Hk H.
  pose proof (digits2_pos_bounds mx) as [Hx _].
  pose proof (digits2_pos_bounds M) as [_ HM].
  assert (Hp : 2 ^ (Zpos (digits2_pos mx) - 1 + k) < 2 ^ Zpos (digits2_pos M)).
  { rewrite Z.pow_add_r by lia.
    pose proof (Z.pow_pos_nonneg 2 k ltac:(lia) Hk). nia. }
  apply pow2_lt_inv in Hp; lia.
Qed.

Lemma div_pow2_bounds (M : positive) (n : Z) :
  0 <= n -> n < Zpos (digits2_pos M) ->
  2 ^ (Zpos (digits2_pos M) - n - 1) <= Zpos M / 2 ^ n < 2 ^ (Zpos (digits2_pos M) - n).
Proof.
  intros Hn Hlt.
  pose proof (digits2_pos_bounds M) as [Hlo Hhi].
  pose proof (Z.pow_pos_nonneg 2 n ltac:(lia) Hn) as Hp.
  split.
  - apply Z.div_le_lower_bound; [assumption|].
    rewrite <- Z.pow_add_r by lia.
    replace (n + (Zpos (digits2_pos M) - n - 1)) with (Zpos (digits2_pos M) - 1) by lia.
    assumption.
  - apply Z.div_lt_upper_bound; [assumption|].
    rewrite <- Z.pow_add_r by lia.
    replace (n + (Zpos (digits2_pos M) - n)) with (Zpos (digits2_pos M)) by lia.
    assumption.
Qed.

(** Rounding to nearest is monotone against a representable lower bound:
    if the canonical float [mx * 2^ex] is below the exact value
    [M * 2^ez], it is below the rounded value too. *)
Lemma binary_round_aux_ge (mx : positive) (ex : Z) (M : positive) (ez : Z) :
  canonical_mantissa prec emax mx ex = true ->
  -1074 <= ez <= ex ->
  Zpos mx * 2 ^ (ex - ez) <= Zpos M ->
  binary_round_aux prec emax false (Zpos M) ez loc_Exact = S754_infinity false \/
  exists m e,
    binary_round_aux prec emax false (Zpos M) ez loc_Exact = S754_finite false m e /\
    (ex < e \/ (ex = e /\ (mx <= m)%positive)).
Proof.
  intros Hcan [Hez Hex] Hval.
  unfold canonical_mantissa in Hcan. apply Z.eqb_eq in Hcan. rewrite fexp_eq in Hcan.
  pose proof (digits_scaled_le mx M (ex - ez) ltac:(lia) Hval) as Hdig.
  pose proof (digits2_pos_pos mx) as Hdx.
  unfold binary_round_aux.
  destruct (shr_fexp_spec (Zpos M) ez loc_Exact ltac:(lia)) as (mrs1 & -> & Hm1 & Hid1).
  rewrite fexp_eq in *. cbn [Zdigits2] in *.
  set (dM := Zpos (digits2_pos M)) in *. set (dx := Zpos (digits2_pos mx)) in *.
  destruct (Z_le_gt_dec (Z.max (dM + ez - 53) (-1074) - ez) 0) as [Hn | Hn].
  - (* no shift: the sum is already representable *)
    rewrite (Hid1 Hn). cbn [shr_record_of_loc loc_of_shr_record shr_m round_nearest_even].
    replace (Z.max (Z.max (dM + ez - 53) (-1074) - ez) 0) with 0 by lia.
    rewrite Z.add_0_r.
    destruct (shr_fexp_spec (Zpos M) ez loc_Exact ltac:(lia)) as (mrs2 & -> & _ & Hid2).
    rewrite fexp_eq in *. cbn [Zdigits2] in *. fold dM in Hid2 |- *.
    rewrite (Hid2 Hn). cbn [shr_record_of_loc shr_m].
    replace (Z.max (Z.max (dM + ez - 53) (-1074) - ez) 0) with 0 by lia.
    rewrite Z.add_0_r.
    destruct (ez <=? emax - prec); [right | now left].
    exists M, ez. split; [reflexivity|]. right.
    assert (ex = ez) by lia. subst ez. split; [reflexivity|].
    rewrite Z.sub_diag, Z.mul_1_r in Hval. exact Hval.
  - (* the sum has more than 53 digits and is shifted right by n1 *)
    set (n1 := dM - 53) in *.
    assert (Hn1 : Z.max (Z.max (dM + ez - 53) (-1074) - ez) 0 = n1) by lia.
    rewrite Hn1 in *.
    assert (Hn1pos : 0 < n1) by lia.
    pose proof (div_pow2_bounds M n1 ltac:(lia) ltac:(lia)) as Hb.
    fold dM in Hb. replace (dM - n1 - 1) with 52 in Hb by lia.
    replace (dM - n1) with 53 in Hb by lia.
    rewrite <- Hm1 in Hb.
    pose proof (round_nearest_even_bounds (shr_m mrs1) (loc_of_shr_record mrs1)) as Hr.
    set (m2 := round_nearest_even (shr_m mrs1) (loc_of_shr_record mrs1)) in *.
    assert (Hm2pos : 0 < m2) by (cbn in Hb; lia).
    destruct m2 as [| p2 | p2] eqn:Em2; try lia.
    destruct (shr_fexp_spec (Zpos p2) (ez + n1) loc_Exact ltac:(lia)) as (mrs2 & -> & Hm2 & Hid2).
    rewrite fexp_eq in *. cbn [Zdigits2] in *.
    assert (Hge : (mx <= p2)%positive \/ ex < ez + n1).
    { destruct (Z.eq_dec (ez + n1) ex) as [He | He]; [left | right; lia].
      assert (n1 = ex - ez) by lia.
      assert (Zpos mx <= shr_m mrs1); [|lia].
      rewrite Hm1. apply Z.div_le_lower_bound; [apply Z.pow_pos_nonneg; lia|].
      rewrite H. lia. }
    destruct (Z_lt_le_dec (Zpos p2) (2 ^ 53)) as [Hlt | Hle].
    + (* rounding stayed within 53 digits *)
      assert (Hd2 : Zpos (digits2_pos p2) = 53).
      { apply digits2_pos_unique. cbn in Hb |- *. lia. }
      rewrite Hd2 in *.
      assert (Hz : Z.max (53 + (ez + n1) - 53) (-1074) - (ez + n1) <= 0) by lia.
      rewrite (Hid2 Hz). cbn [shr_record_of_loc shr_m].
      replace (Z.max (Z.max (53 + (ez + n1) - 53) (-1074) - (ez + n1)) 0) with 0 by lia.
      rewrite Z.add_0_r.
      destruct (ez + n1 <=? emax - prec); [right | now left].
      exists p2, (ez + n1). split; [reflexivity|].
      destruct Hge as [Hge | Hge]; [|left; exact Hge].
      destruct (Z.eq_dec (ez + n1) ex); [right | left; lia].
      split; [lia | exact Hge].
    + (* rounding carried into a 54th digit *)
      assert (Hp2 : Zpos p2 = 2 ^ 53) by (cbn in Hb |- *; lia).
      assert (Hd2 : Zpos (digits2_pos p2) = 54).
      { apply digits2_pos_unique. rewrite Hp2. cbn. lia. }
      rewrite Hd2 in *.
      replace (Z.max (Z.max (54 + (ez + n1) - 53) (-1074) - (ez + n1)) 0) with 1 in * by lia.
      rewrite Hp2 in Hm2. change (2 ^ 53 / 2 ^ 1) with (Zpos (2 ^ 52)%positive) in Hm2.
      rewrite Hm2.
      destruct (ez + n1 + 1 <=? emax - prec); [right | now left].
      eexists _, _. split; [reflexivity|]. left. lia.
Qed.

Lemma pos_iter_xO (m d : positive) :
  Zpos (Pos.iter xO m d) = Zpos m * 2 ^ Zpos d.
Proof.
  rewrite Pos2Z.inj_pow_pos || idtac.
  revert m. induction d as [| d IH] using Pos.peano_ind; intro m.
  - cbn [Pos.iter]. rewrite Z.pow_1_r. lia.
  - rewrite Pos.iter_succ, Pos2Z.inj_succ, Z.pow_succ_r by lia.
    rewrite Pos2Z.inj_xO, IH. lia.
Qed.

Lemma shl_align_value (m : positive) (e e' : Z) :
  e' <= e ->
  Zpos (fst (shl_align m e e')) = Zpos m * 2 ^ (e - e').
Proof.
  intro H. unfold shl_align.
  destruct (e' - e) as [| d | d] eqn:E.
  - cbn [fst]. replace (e - e') with 0 by lia. lia.
  - lia.
  - cbn [fst]. rewrite pos_iter_xO. f_equal. f_equal. lia.
Qed.

Lemma canonical_emin (m : positive) (e : Z) :
  canonical_mantissa prec emax m e = true -> -1074 <= e.
Proof.
  unfold canonical_mantissa. rewrite fexp_eq. intro H. apply Z.eqb_eq in H. lia.
Qed.

Lemma SFcompare_finite_le (mx m : positive) (ex e : Z) :
  ex < e \/ (ex = e /\ (mx <= m)%positive) ->
  SFleb (S754_finite false mx ex) (S754_finite false m e) = true.
Proof.
  unfold SFleb, SFcompare. intros [H | [-> H]].
  - apply Z.compare_lt_iff in H. now rewrite H.
  - rewrite Z.compare_refl. fold (Pos.compare mx m).
    unfold Pos.le in H. destruct (Pos.compare mx m); [reflexivity | reflexivity | contradiction].
Qed.

(** Adding a non-negative float to a non-negative float yields a
    non-negative float that is not below the first operand. *)
Lemma SFadd_nonneg_mono (x d : spec_float) :
  valid_binary x = true -> valid_binary d = true ->
  sf_nonneg x = true -> sf_nonneg d = true ->
  sf_nonneg (SFadd prec emax x d) = true /\
  SFleb x (SFadd prec emax x d) = true.
Proof.
  intros Vx Vd Nx Nd.
  destruct x as [sx | sx | | sx mx ex]; try discriminate;
    destruct d as [sd | sd | | sd md ed]; try discriminate;
    cbn [sf_nonneg] in Nx, Nd; try (apply negb_true_iff in Nx; subst sx);
    try (apply negb_true_iff in Nd; subst sd).
  - destruct sx, sd; split; reflexivity.
  - split; reflexivity.
  - split; reflexivity.
  - split; reflexivity.
  - split; reflexivity.
  - split; reflexivity.
  - cbn [SFadd]. split; [reflexivity|]. apply SFcompare_finite_le. right. split; [reflexivity | apply Pos.le_refl].
  - split; reflexivity.
  - (* finite + finite *)
    cbn [valid_binary] in Vx, Vd. unfold bounded in Vx, Vd.
    apply andb_true_iff in Vx as [Cx _]. apply andb_true_iff in Vd as [Cd _].
    pose proof (canonical_emin _ _ Cx). pose proof (canonical_emin _ _ Cd).
    cbn [SFadd cond_Zopp].
    set (ez := Z.min ex ed).
    assert (Hzx : ez <= ex) by (unfold ez; lia).
    assert (Hzd : ez <= ed) by (unfold ez; lia).
    pose proof (shl_align_value mx ex ez Hzx) as Hax.
    pose proof (shl_align_value md ed ez Hzd) as Had.
    set (ax := fst (shl_align mx ex ez)) in *.
    set (ad := fst (shl_align md ed ez)) in *.
    change (Zpos ax + Zpos ad) with (Zpos (ax + ad)).
    cbn [binary_normalize]. unfold binary_round.
    assert (Hval : Zpos mx * 2 ^ (ex - ez) <= Zpos (ax + ad)) by lia.
    pose proof (digits_scaled_le mx (ax + ad) (ex - ez) ltac:(lia) Hval) as Hdig.
    assert (Hshl : shl_align (ax + ad) ez (fexp prec emax (Zpos (digits2_pos (ax + ad)) + ez)) = ((ax + ad)%positive, ez)).
    { unfold shl_align. rewrite fexp_eq.
      unfold canonical_mantissa in Cx. apply Z.eqb_eq in Cx. rewrite fexp_eq in Cx.
      destruct (Z.max (Zpos (digits2_pos (ax + ad)) + ez - 53) (-1074) - ez) eqn:E; try reflexivity.
      lia. }
    rewrite Hshl.
    destruct (binary_round_aux_ge mx ex (ax + ad) ez Cx ltac:(unfold ez; lia) Hval)
      as [-> | (m & e & -> & Hle)].
    + split; reflexivity.
    + split; [reflexivity | apply SFcompare_finite_le; exact Hle].
Qed.

Lemma add_nonneg_mono (x d : float) :
  nonneg x = true -> nonneg d = true ->
  nonneg (x + d) = true /\ (x <=? x + d)%float = true.
Proof.
  unfold nonneg. intros Hx Hd.
  rewrite FloatAxioms.leb_spec, FloatAxioms.add_spec. unfold SF64add.
  apply SFadd_nonneg_mono; auto using Prim2SF_valid.
Qed.

Lemma binary_round_aux_nonneg (m e : Z) (l : location) :
  0 <= m -> sf_nonneg (binary_round_aux prec emax false m e l) = true.
Proof.
  intro H.
  destruct (binary_round_aux_sign false m e l H) as [-> | [-> | (m' & e' & ->)]];
    reflexivity.
Qed.

Lemma of_uint63_nonneg (i : int) : nonneg (of_uint63 i) = true.
Proof.
  unfold nonneg. rewrite FloatAxioms.of_uint63_spec.
  pose proof (Uint63.to_Z_bounded i) as [Hi _].
  destruct (to_Z i) as [| p | p]; [reflexivity | | lia].
  cbn [binary_normalize]. unfold binary_round.
  destruct (shl_align _ _ _) as [mz ez].
  apply binary_round_aux_nonneg. lia.
Qed.

Lemma SFdiv_nonneg (x : spec_float) (my : positive) (ey : Z) :
  sf_nonneg x = true ->
  sf_nonneg (SFdiv prec emax x (S754_finite false my ey)) = true.
Proof.
  intro Hx. destruct x as [sx | sx | | sx mx ex]; try discriminate; cbn [sf_nonneg] in Hx.
  - destruct sx; reflexivity.
  - apply negb_true_iff in Hx. subst sx. reflexivity.
  - apply negb_true_iff in Hx. subst sx. cbn [SFdiv xorb].
    unfold SFdiv_core_binary.
    set (m' := match _ - _ - _ with Z0 => _ | Zpos _ => _ | Zneg _ => _ end).
    assert (Hm' : 0 <= m').
    { unfold m'. destruct (_ - _ - _); [lia | | lia]. apply Z.shiftl_nonneg. lia. }
    pose proof (Z.div_pos m' (Zpos my) Hm' ltac:(lia)) as Hq.
    unfold Z.div in Hq.
    destruct (Z.div_eucl m' (Zpos my)) as [q r]. cbn [fst] in Hq.
    apply binary_round_aux_nonneg. exact Hq.
Qed.

Lemma div_nonneg (x y : float) (my : positive) (ey : Z) :
  Prim2SF y = S754_finite false my ey ->
  nonneg x = true -> nonneg (x / y) = true.
Proof.
  unfold nonneg. intros Hy Hx. rewrite FloatAxioms.div_spec, Hy. unfold SF64div.
  apply SFdiv_nonneg. exact Hx.
Qed.


Lemma Prim2SF_one : Prim2SF 1 = S754_finite false 4503599627370496 (-52).
Proof. vm_compute. reflexivity. Qed.

Lemma SF_not_leb_ltb (m1 : positive) (e1 : Z) (x : spec_float) :
  sf_nonneg x = true ->
  SFleb (S754_finite false m1 e1) x = false ->
  SFltb x (S754_finite false m1 e1) = true.
Proof.
  destruct x as [s | s | | s m e]; cbn [sf_nonneg]; try discriminate.
  - reflexivity.
  - intro H. apply negb_true_iff in H. subst s. discriminate.
  - intro H. apply negb_true_iff in H. subst s.
    unfold SFleb, SFltb, SFcompare.
    rewrite (Z.compare_antisym e1 e).
    fold (Pos.compare m1 m). fold (Pos.compare m m1).
    rewrite (Pos.compare_antisym m1 m).
    destruct (e1 ?= e); cbn [CompOpp]; try discriminate; try reflexivity.
    destruct (m1 ?= m)%positive; cbn [CompOpp]; try discriminate; reflexivity.
Qed.

Lemma not_leb_ltb_one (x : float) :
  nonneg x = true -> (1 <=? x)%float = false -> (x <? 1)%float = true.
Proof.
  unfold nonneg. rewrite FloatAxioms.leb_spec, FloatAxioms.ltb_spec, Prim2SF_one.
  apply SF_not_leb_ltb.
Qed.

End Binary64.

(** * The silence classifier *)

Section Classifier.

Lemma bytes_pair_ind (P : bytes -> Prop) :
  P [] -> (forall b, P [b]) ->
  (forall b0 b1 rest, P rest -> P (b0 :: b1 :: rest)) ->
  forall c, P c.
Proof.
  intros H0 H1 H2.
  assert (Hboth : forall c, P c /\ forall b, P (b :: c)).
  { induction c as [| b c [IH IH']]; split; auto. }
  intro c. apply Hboth.
Qed.

Lemma len_nonneg {A : Type} (x : list A) : 0 <= len x.
Proof. unfold len. lia. Qed.

Lemma len_cons {A : Type} (a : A) (x : list A) : len (a :: x) = len x + 1.
Proof. unfold len. cbn [List.length]. lia. Qed.

Lemma len_app {A : Type} (x y : list A) : len (x ++ y) = len x + len y.
Proof. unfold len. rewrite length_app. lia. Qed.

Lemma struct_unpack_h_pair (b0 b1 : byte) :
  struct_unpack_h [b0; b1] = Return (sample_of b0 b1).
Proof. reflexivity. Qed.

Lemma slice_first_sample (b0 b1 : byte) (rest : bytes) :
  slice (b0 :: b1 :: rest) (0 * SAMPLE_WIDTH) ((0 + 1) * SAMPLE_WIDTH) = [b0; b1].
Proof. reflexivity. Qed.

Lemma slice_next_sample (b0 b1 : byte) (rest : bytes) (i : nat) :
  slice (b0 :: b1 :: rest)
    (Z.of_nat (S i) * SAMPLE_WIDTH) ((Z.of_nat (S i) + 1) * SAMPLE_WIDTH)
  = slice rest (Z.of_nat i * SAMPLE_WIDTH) ((Z.of_nat i + 1) * SAMPLE_WIDTH).
Proof.
  unfold slice, SAMPLE_WIDTH.
  replace ((Z.of_nat (S i) + 1) * 2 - Z.of_nat (S i) * 2) with 2 by lia.
  replace ((Z.of_nat i + 1) * 2 - Z.of_nat i * 2) with 2 by lia.
  replace (Z.to_nat (Z.of_nat (S i) * 2)) with (S (S (Z.to_nat (Z.of_nat i * 2)))) by lia.
  reflexivity.
Qed.

Lemma max_abs_loop_shift (b0 b1 : byte) (rest : bytes) (l : list nat) (m : Z) :
  max_abs_loop (b0 :: b1 :: rest) (map Z.of_nat (map S l)) m
  = max_abs_loop rest (map Z.of_nat l) m.
Proof.
  revert m. induction l as [| i l IH]; intro m; [reflexivity|].
  cbn [map max_abs_loop]. rewrite slice_next_sample.
  destruct (struct_unpack_h _); [apply IH | reflexivity].
Qed.

Lemma range_half_len_cons2 (b0 b1 : byte) (rest : bytes) :
  range (len (b0 :: b1 :: rest) / SAMPLE_WIDTH)
  = 0 :: map Z.of_nat (map S (seq 0 (Z.to_nat (len rest / SAMPLE_WIDTH)))).
Proof.
  unfold range, SAMPLE_WIDTH. rewrite !len_cons.
  replace (len rest + 1 + 1) with (1 * 2 + len rest) by lia.
  rewrite Z.div_add_l by lia.
  pose proof (len_nonneg rest).
  assert (0 <= len rest / 2) by (apply Z.div_pos; lia).
  replace (Z.to_nat (1 + len rest / 2)) with (S (Z.to_nat (len rest / 2))) by lia.
  cbn [seq map]. rewrite <- seq_shift. reflexivity.
Qed.

Lemma max_step (v m : Z) :
  (if Z.abs v >? m then Z.abs v else m) = Z.max m (Z.abs v).
Proof. destruct (Z.gtb_spec (Z.abs v) m); lia. Qed.

(** The loop never raises: it computes the largest magnitude among the
    complete samples. *)
Lemma max_abs_loop_samples (c : bytes) :
  forall m,
    max_abs_loop c (range (len c / SAMPLE_WIDTH)) m
    = Return (fold_left (fun m v => Z.max m (Z.abs v)) (samples c) m).
Proof.
  induction c as [| b | b0 b1 rest IH] using bytes_pair_ind; intro m.
  - reflexivity.
  - reflexivity.
  - rewrite range_half_len_cons2. cbn [max_abs_loop].
    rewrite slice_first_sample, struct_unpack_h_pair, max_abs_loop_shift.
    fold (range (len rest / SAMPLE_WIDTH)). rewrite IH, max_step. reflexivity.
Qed.

Lemma is_chunk_silent_max_abs_eq (c : bytes) (threshold : Z) :
  is_chunk_silent_max_abs c threshold
  = Return (match c with
            | [] => true
            | _ :: _ => max_abs_amplitude c <? threshold
            end).
Proof.
  destruct c as [| b c]; [reflexivity|].
  unfold is_chunk_silent_max_abs. rewrite max_abs_loop_samples. reflexivity.
Qed.

Lemma is_chunk_silent_configured (c : bytes) :
  is_chunk_silent_max_abs c SILENCE_THRESHOLD = Return (is_silent c).
Proof. apply is_chunk_silent_max_abs_eq. Qed.

Lemma fold_max_ge (l : list Z) (m : Z) :
  m <= fold_left (fun m v => Z.max m (Z.abs v)) l m.
Proof.
  revert m. induction l as [| v l IH]; intro m; cbn [fold_left]; [lia|].
  specialize (IH (Z.max m (Z.abs v))). lia.
Qed.

Lemma fold_max_in (l : list Z) (m v : Z) :
  In v l -> Z.abs v <= fold_left (fun m v => Z.max m (Z.abs v)) l m.
Proof.
  revert m. induction l as [| x l IH]; intros m Hin; [contradiction|].
  cbn [fold_left]. destruct Hin as [-> | Hin].
  - pose proof (fold_max_ge l (Z.max m (Z.abs v))). lia.
  - apply IH. exact Hin.
Qed.

Lemma max_abs_amplitude_nonneg (c : bytes) : 0 <= max_abs_amplitude c.
Proof. apply fold_max_ge. Qed.

Lemma max_abs_amplitude_in (c : bytes) (v : Z) :
  In v (samples c) -> Z.abs v <= max_abs_amplitude c.
Proof. apply fold_max_in. Qed.

Lemma samples_nil_amplitude (c : bytes) :
  samples c = [] -> max_abs_amplitude c = 0.
Proof. unfold max_abs_amplitude. now intros ->. Qed.

(** Dropping an incomplete trailing byte keeps the samples. *)
Lemma samples_whole_prefix (c : bytes) :
  samples (whole_samples_prefix c) = samples c.
Proof.
  unfold whole_samples_prefix, SAMPLE_WIDTH.
  induction c as [| b | b0 b1 rest IH] using bytes_pair_ind.
  - reflexivity.
  - reflexivity.
  - rewrite !len_cons.
    replace (len rest + 1 + 1) with (1 * 2 + len rest) by lia.
    rewrite Z.div_add_l by lia.
    pose proof (len_nonneg rest).
    assert (0 <= len rest / 2) by (apply Z.div_pos; lia).
    replace (Z.to_nat (2 * (1 + len rest / 2)))
      with (S (S (Z.to_nat (2 * (len rest / 2))))) by lia.
    cbn [firstn samples]. now rewrite IH.
Qed.

End Classifier.

(** ** What the classifier computes *)

(** The classifier always returns (no [struct.error]): silent exactly for
    the empty chunk and for a chunk whose largest sample magnitude, 0 when
    it has no complete sample, is strictly below the threshold. *)
Lemma classifier_silent_iff (c : bytes) (threshold : Z) :
  (exists b, is_chunk_silent_max_abs c threshold = Return b) /\
  (is_chunk_silent_max_abs c threshold = Return true <->
   c = [] \/ max_abs_amplitude c < threshold).
Proof.
  rewrite is_chunk_silent_max_abs_eq. split; [eauto|].
  destruct c as [| b c].
  - split; auto.
  - split.
    + intro H. injection H as H. apply Z.ltb_lt in H. now right.
    + intros [H | H]; [discriminate|]. apply Z.ltb_lt in H. now rewrite H.
Qed.

(** For a positive threshold a chunk is silent exactly when it has no
    complete sample or its largest sample magnitude is strictly below the
    threshold. *)
Lemma classifier_silent_iff_positive (c : bytes) (threshold : Z) :
  0 < threshold ->
  (is_chunk_silent_max_abs c threshold = Return true <->
   samples c = [] \/ max_abs_amplitude c < threshold).
Proof.
  intro Ht. destruct (classifier_silent_iff c threshold) as [_ ->].
  split.
  - intros [-> | H]; [now left | now right].
  - intros [H | H]; [right | now right].
    rewrite (samples_nil_amplitude c H). exact Ht.
Qed.

(** A sample as large as the threshold makes the chunk not silent. *)
Lemma classifier_sample_at_threshold (c : bytes) (threshold v : Z) :
  In v (samples c) -> threshold <= Z.abs v ->
  is_chunk_silent_max_abs c threshold = Return false.
Proof.
  intros Hin Hv. rewrite is_chunk_silent_max_abs_eq.
  destruct c as [| b c]; [contradiction|].
  pose proof (max_abs_amplitude_in _ _ Hin).
  destruct (Z.ltb_spec (max_abs_amplitude (b :: c)) threshold); [lia | reflexivity].
Qed.

(** For a positive threshold, or a chunk of two bytes or more, an
    incomplete trailing byte does not change the classification. *)
Lemma classifier_ignores_partial_tail (c : bytes) (threshold : Z) :
  0 < threshold \/ 2 <= len c ->
  is_chunk_silent_max_abs c threshold
  = is_chunk_silent_max_abs (whole_samples_prefix c) threshold.
Proof.
  intro H. rewrite !is_chunk_silent_max_abs_eq.
  assert (Ha : max_abs_amplitude (whole_samples_prefix c) = max_abs_amplitude c).
  { unfold max_abs_amplitude. now rewrite samples_whole_prefix. }
  destruct c as [| b0 [| b1 rest]]; [reflexivity | |].
  - destruct H as [H | H]; [|rewrite len_cons in H; cbn in H; lia].
    cbn. f_equal. apply Z.ltb_lt. exact H.
  - rewrite <- Ha. clear.
    unfold whole_samples_prefix, SAMPLE_WIDTH. rewrite !len_cons.
    replace (len rest + 1 + 1) with (1 * 2 + len rest) by lia.
    rewrite Z.div_add_l by lia.
    pose proof (len_nonneg rest).
    assert (0 <= len rest / 2) by (apply Z.div_pos; lia).
    replace (Z.to_nat (2 * (1 + len rest / 2)))
      with (S (S (Z.to_nat (2 * (len rest / 2))))) by lia.
    reflexivity.
Qed.

(** The RMS classifier calls every chunk without a complete sample
    silent, whatever the threshold. *)
Lemma rms_classifier_no_sample (b : byte) (threshold : float) :
  is_chunk_silent_rms [b] threshold = Return true.
Proof. reflexivity. Qed.

(** C4: at threshold 0 a one-byte chunk, which holds no complete 16-bit
    sample, is classified not silent by [is_chunk_silent_max_abs], where
    the claim (and [is_chunk_silent_rms]) calls a chunk without samples
    silent; the empty chunk is silent at that threshold. *)
Theorem C4_one_byte_chunk_at_threshold_zero :
  samples ["000"%byte] = [] /\
  is_chunk_silent_max_abs ["000"%byte] 0 = Return false /\
  is_chunk_silent_max_abs [] 0 = Return true /\
  (forall t, is_chunk_silent_rms ["000"%byte] t = Return true).
Proof. repeat split. Qed.

(** C9: at threshold 0 the one-byte chunk is classified not silent while
    its largest whole-sample prefix, the empty chunk, is classified
    silent; neither call raises. *)
Theorem C9_partial_chunk_at_threshold_zero :
  len ["000"%byte] mod SAMPLE_WIDTH <> 0 /\
  whole_samples_prefix ["000"%byte] = [] /\
  is_chunk_silent_max_abs ["000"%byte] 0 = Return false /\
  is_chunk_silent_max_abs (whole_samples_prefix ["000"%byte]) 0 = Return true.
Proof. repeat split. discriminate. Qed.

(** * The relay gate *)

Section RelayGate.

Variable client_address : string.

(** One binary message whose send succeeds: the local state moves to
    [next_session], the chunk is sent back when the handler is relaying
    afterwards, and nothing else is sent or written. *)
Lemma handle_binary (c : bytes) (ss : session) (w : world) :
  exists w',
    handle_message client_address {| payload := Binary c; send_raises := None |} ss w
    = (next_session ss c, w', None) /\
    sent w' = sent w ++ (if relaying_audio (next_session ss c) then [c] else []) /\
    received w' = received w ++ [Binary c] /\
    files w' = files w.
Proof.
  unfold handle_message. cbn [payload send_raises].
  rewrite is_chunk_silent_configured.
  unfold silence_detection, next_session, chunk_duration.
  cbn [pcm_data_chunks current_silence_accumulated_duration relaying_audio].
  destruct (is_silent c).
  - destruct (PrimFloat.leb _ _).
    + destruct (relaying_audio ss);
        cbn [relaying_audio]; eexists; (split; [reflexivity|]); cbn;
        rewrite ?app_nil_r; auto.
    + destruct (relaying_audio ss) eqn:E; cbn [relaying_audio]; rewrite ?E;
        eexists; (split; [reflexivity|]); cbn; rewrite ?app_nil_r; auto.
  - destruct (relaying_audio ss); cbn [negb relaying_audio];
      eexists; (split; [reflexivity|]); cbn; auto.
Qed.

Lemma receive_loop_app (f1 f2 : list frame) (closing : option raised) :
  forall ss w ss1 w1,
    receive_loop client_address f1 None ss w = (ss1, w1, None) ->
    receive_loop client_address (f1 ++ f2) closing ss w
    = receive_loop client_address f2 closing ss1 w1.
Proof.
  induction f1 as [| fr f1 IH]; intros ss w ss1 w1 H.
  - cbn in H. injection H as -> ->. reflexivity.
  - cbn [receive_loop app] in *.
    destruct (handle_message client_address fr ss w) as [[ss' w'] [e |]].
    + discriminate.
    + eapply IH. exact H.
Qed.

(** A run on binary chunks whose sends succeed raises nothing. *)
Lemma receive_loop_binary (chunks : list bytes) :
  forall ss w,
    exists ss' w',
      receive_loop client_address (binary_frames chunks) None ss w = (ss', w', None).
Proof.
  induction chunks as [| c chunks IH]; intros ss w.
  - cbn. eauto.
  - cbn [binary_frames map receive_loop].
    destruct (handle_binary c ss w) as (w' & -> & _).
    apply IH.
Qed.

Lemma receive_loop_binary_snoc (chunks : list bytes) (c : bytes) (ss : session) (w : world) :
  forall ss1 w1,
    receive_loop client_address (binary_frames chunks) None ss w = (ss1, w1, None) ->
    exists w2,
      receive_loop client_address (binary_frames (chunks ++ [c])) None ss w
      = (next_session ss1 c, w2, None) /\
      sent w2 = sent w1 ++ (if relaying_audio (next_session ss1 c) then [c] else []) /\
      received w2 = received w1 ++ [Binary c] /\
      files w2 = files w1.
Proof.
  intros ss1 w1 H. unfold binary_frames. rewrite map_app.
  rewrite (receive_loop_app _ _ None _ _ _ _ H).
  cbn [map receive_loop].
  destruct (handle_binary c ss1 w1) as (w2 & -> & Hs & Hr & Hf).
  exists w2. auto.
Qed.

End RelayGate.

Lemma session_after_nil : session_after [] = initial_session.
Proof. reflexivity. Qed.

Lemma relayed_nil : relayed [] = [].
Proof. reflexivity. Qed.

Lemma run_chunks_snoc (chunks : list bytes) (c : bytes) :
  session_after (chunks ++ [c]) = next_session (session_after chunks) c /\
  relayed (chunks ++ [c])
  = relayed chunks
    ++ (if relaying_audio (session_after (chunks ++ [c])) then [c] else []).
Proof.
  unfold session_after, relayed, run_chunks.
  destruct (receive_loop_binary "client" chunks initial_session empty_world)
    as (ss1 & w1 & H1).
  destruct (receive_loop_binary_snoc "client" chunks c _ _ _ _ H1)
    as (w2 & H2 & Hs & _).
  rewrite H1, H2. cbn [fst snd]. split; [reflexivity | exact Hs].
Qed.

Lemma session_after_snoc (chunks : list bytes) (c : bytes) :
  session_after (chunks ++ [c]) = next_session (session_after chunks) c.
Proof. apply run_chunks_snoc. Qed.

Lemma relayed_snoc (chunks : list bytes) (c : bytes) :
  relayed (chunks ++ [c])
  = relayed chunks
    ++ (if relaying_audio (session_after (chunks ++ [c])) then [c] else []).
Proof. apply run_chunks_snoc. Qed.

Lemma session_after_one (c : bytes) :
  session_after [c] = next_session initial_session c.
Proof. apply (session_after_snoc [] c). Qed.

Lemma relayed_one (c : bytes) :
  relayed [c] = if relaying_audio (next_session initial_session c) then [c] else [].
Proof.
  pose proof (relayed_snoc [] c) as H.
  rewrite relayed_nil in H. cbn [app] in H.
  rewrite session_after_one in H. exact H.
Qed.

Lemma session_after_fold (chunks : list bytes) :
  session_after chunks = fold_left next_session chunks initial_session.
Proof.
  induction chunks as [| c chunks IH] using rev_ind.
  - reflexivity.
  - rewrite session_after_snoc, fold_left_app, IH. reflexivity.
Qed.

Lemma relayed_cons_snoc (c : bytes) (chunks : list bytes) (d : bytes) :
  relayed (c :: chunks ++ [d])
  = relayed (c :: chunks)
    ++ (if relaying_audio (session_after (c :: chunks ++ [d])) then [d] else []).
Proof. apply (relayed_snoc (c :: chunks) d). Qed.

(** Rewrites [relayed (c :: l ++ [d])] written as a plain list. *)
Ltac peel_last c l d :=
  let E := fresh "E" in
  pose proof (relayed_cons_snoc c l d) as E; cbn [app] in E; rewrite E; clear E.

(** ** Classification and duration of the scenario chunks *)

Lemma is_silent_below_threshold (c : bytes) :
  max_abs_amplitude c < SILENCE_THRESHOLD -> is_silent c = true.
Proof.
  intro H. destruct c; [reflexivity|]. cbn [is_silent]. now apply Z.ltb_lt.
Qed.

Lemma is_silent_loud (c : bytes) (v : Z) :
  In v (samples c) -> SILENCE_THRESHOLD <= Z.abs v -> is_silent c = false.
Proof.
  intros Hin Hv. destruct c as [| b c]; [contradiction|].
  cbn [is_silent]. pose proof (max_abs_amplitude_in _ _ Hin).
  apply Z.ltb_ge. lia.
Qed.

Lemma half_second_duration (c : bytes) :
  len c = 16000 -> chunk_duration c = 0.5%float.
Proof. unfold chunk_duration. intros ->. vm_compute. reflexivity. Qed.

Lemma half_second_quiet_silent (c : bytes) :
  half_second_quiet c -> is_silent c = true /\ chunk_duration c = 0.5%float.
Proof.
  intros [Hl Ha]. split.
  - apply is_silent_below_threshold. rewrite Ha. reflexivity.
  - now apply half_second_duration.
Qed.

Lemma has_amplitude_2000_loud (c : bytes) :
  has_amplitude c 2000 -> is_silent c = false.
Proof.
  intros (v & Hin & Hv). apply (is_silent_loud c v Hin).
  rewrite Hv. unfold SILENCE_THRESHOLD. lia.
Qed.

(** The silence counter and the relay flag along three half-second quiet
    chunks followed by a loud one. *)
Lemma three_quiet_then_loud (c1 c2 c3 c4 : bytes) :
  half_second_quiet c1 -> half_second_quiet c2 -> half_second_quiet c3 ->
  has_amplitude c4 2000 ->
  (relaying_audio (session_after [c1]) = true /\
   relaying_audio (session_after [c1; c2]) = false /\
   relaying_audio (session_after [c1; c2; c3]) = false /\
   relaying_audio (session_after [c1; c2; c3; c4]) = true) /\
  (current_silence_accumulated_duration (session_after [c1]) = 0.5%float /\
   current_silence_accumulated_duration (session_after [c1; c2]) = 1%float /\
   current_silence_accumulated_duration (session_after [c1; c2; c3]) = 1.5%float /\
   current_silence_accumulated_duration (session_after [c1; c2; c3; c4]) = 0%float).
Proof.
  intros H1 H2 H3 H4.
  apply half_second_quiet_silent in H1 as [S1 D1].
  apply half_second_quiet_silent in H2 as [S2 D2].
  apply half_second_quiet_silent in H3 as [S3 D3].
  apply has_amplitude_2000_loud in H4.
  rewrite !session_after_fold. cbn [fold_left].
  unfold next_session.
  cbn [current_silence_accumulated_duration relaying_audio initial_session].
  rewrite S1, S2, S3, H4, D1, D2, D3.
  repeat split.
Qed.

Lemma three_quiet_then_loud_relayed (c1 c2 c3 c4 : bytes) :
  half_second_quiet c1 -> half_second_quiet c2 -> half_second_quiet c3 ->
  has_amplitude c4 2000 ->
  relayed [c1; c2; c3; c4] = [c1; c4].
Proof.
  intros H1 H2 H3 H4.
  destruct (three_quiet_then_loud c1 c2 c3 c4 H1 H2 H3 H4)
    as ((R1 & R2 & R3 & R4) & _).
  peel_last c1 [c2; c3] c4. rewrite R4.
  peel_last c1 [c2] c3. rewrite R3.
  peel_last c1 (@nil bytes) c2. rewrite R2.
  rewrite relayed_one, <- session_after_one, R1. reflexivity.
Qed.

Lemma quiet_chunk_half_second_quiet : half_second_quiet quiet_chunk.
Proof. split; vm_compute; reflexivity. Qed.

Lemma loud_chunk_has_amplitude : has_amplitude loud_chunk 2000.
Proof. exists 2000. split; [left |]; vm_compute; reflexivity. Qed.

(** C1 (as amended): with threshold 800 and a maximum silence of 1.0 s,
    three consecutive 0.5 s chunks of largest magnitude 50 are all
    classified silent; chunk 1 is relayed, chunks 2 and 3 are withheld, the
    gate pausing at chunk 2, when the counter reaches 1.0 s; a fourth chunk
    holding a sample of magnitude 2000 is relayed and resets the counter
    to 0. *)
Theorem C1_three_quiet_chunks_then_speech (c1 c2 c3 c4 : bytes) :
  half_second_quiet c1 -> half_second_quiet c2 -> half_second_quiet c3 ->
  has_amplitude c4 2000 ->
  relayed [c1; c2; c3; c4] = [c1; c4] /\
  relaying_audio (session_after [c1]) = true /\
  relaying_audio (session_after [c1; c2]) = false /\
  current_silence_accumulated_duration (session_after [c1; c2]) = 1%float /\
  relaying_audio (session_after [c1; c2; c3]) = false /\
  relaying_audio (session_after [c1; c2; c3; c4]) = true /\
  current_silence_accumulated_duration (session_after [c1; c2; c3; c4]) = 0%float.
Proof.
  intros H1 H2 H3 H4.
  pose proof (three_quiet_then_loud_relayed c1 c2 c3 c4 H1 H2 H3 H4) as HR.
  destruct (three_quiet_then_loud c1 c2 c3 c4 H1 H2 H3 H4)
    as ((R1 & R2 & R3 & R4) & (A1 & A2 & A3 & A4)).
  exact (conj HR (conj R1 (conj R2 (conj A2 (conj R3 (conj R4 A4)))))).
Qed.

Lemma C1_three_quiet_chunks_then_speech_witness :
  relayed [quiet_chunk; quiet_chunk; quiet_chunk; loud_chunk]
  = [quiet_chunk; loud_chunk].
Proof.
  refine (proj1 (C1_three_quiet_chunks_then_speech
                   quiet_chunk quiet_chunk quiet_chunk loud_chunk _ _ _ _)).
  - split; vm_compute; reflexivity.
  - split; vm_compute; reflexivity.
  - split; vm_compute; reflexivity.
  - exists 2000. split; [left |]; vm_compute; reflexivity.
Defined.

(** C1 as stated fails: on three half-second quiet chunks and a loud one
    the handler does not relay chunk 2, and it is already paused after
    chunk 2. *)
Lemma C1_counterexample :
  half_second_quiet quiet_chunk /\ has_amplitude loud_chunk 2000 /\
  relayed [quiet_chunk; quiet_chunk; quiet_chunk; loud_chunk]
  <> [quiet_chunk; quiet_chunk; loud_chunk] /\
  relaying_audio (session_after [quiet_chunk; quiet_chunk]) = false.
Proof.
  pose proof quiet_chunk_half_second_quiet as Hq.
  pose proof loud_chunk_has_amplitude as Hl.
  pose proof (three_quiet_then_loud_relayed _ _ _ _ Hq Hq Hq Hl) as HR.
  pose proof (proj1 (proj2 (proj1 (three_quiet_then_loud _ _ _ _ Hq Hq Hq Hl)))) as R2.
  refine (conj Hq (conj Hl (conj _ R2))).
  rewrite HR. intro H. apply (f_equal (@List.length bytes)) in H.
  cbn [List.length] in H. discriminate H.
Qed.

(** ** The silence counter is a non-negative float *)

Lemma zero_nonneg : nonneg 0%float = true.
Proof. vm_compute. reflexivity. Qed.

Lemma bytes_per_second_finite :
  exists m e, Prim2SF (float_of_Z BYTES_PER_SECOND) = S754_finite false m e.
Proof. vm_compute. eauto. Qed.

Lemma chunk_duration_nonneg (c : bytes) : nonneg (chunk_duration c) = true.
Proof.
  unfold chunk_duration, true_div.
  destruct bytes_per_second_finite as (m & e & Hb).
  apply (Binary64.div_nonneg _ _ m e Hb).
  unfold float_of_Z. pose proof (len_nonneg c) as Hl.
  destruct (Z.ltb_spec (len c) 0); [lia|].
  apply Binary64.of_uint63_nonneg.
Qed.

Lemma next_session_nonneg (ss : session) (c : bytes) :
  nonneg (current_silence_accumulated_duration ss) = true ->
  nonneg (current_silence_accumulated_duration (next_session ss c)) = true.
Proof.
  intro H. unfold next_session. cbn [current_silence_accumulated_duration].
  destruct (is_silent c).
  - apply Binary64.add_nonneg_mono; [exact H | apply chunk_duration_nonneg].
  - exact zero_nonneg.
Qed.

Lemma session_after_nonneg (chunks : list bytes) :
  nonneg (current_silence_accumulated_duration (session_after chunks)) = true.
Proof.
  induction chunks as [| c chunks IH] using rev_ind.
  - exact zero_nonneg.
  - rewrite session_after_snoc. apply next_session_nonneg. exact IH.
Qed.

(** ** The trailing run of silent chunks *)

Lemma trailing_silent_run_snoc (chunks : list bytes) (c : bytes) :
  trailing_silent_run (chunks ++ [c])
  = if is_silent c then trailing_silent_run chunks ++ [c] else [].
Proof.
  unfold trailing_silent_run. rewrite rev_app_distr. cbn [rev app leading_silent].
  destruct (is_silent c); reflexivity.
Qed.

Lemma total_duration_snoc (chunks : list bytes) (c : bytes) :
  total_duration (chunks ++ [c])
  = PrimFloat.add (total_duration chunks) (chunk_duration c).
Proof. unfold total_duration. rewrite fold_left_app. reflexivity. Qed.

Lemma accumulator_is_trailing_sum (chunks : list bytes) :
  current_silence_accumulated_duration (session_after chunks)
  = total_duration (trailing_silent_run chunks).
Proof.
  induction chunks as [| c chunks IH] using rev_ind.
  - reflexivity.
  - rewrite session_after_snoc, trailing_silent_run_snoc.
    unfold next_session. cbn [current_silence_accumulated_duration].
    destruct (is_silent c).
    + rewrite total_duration_snoc, IH. reflexivity.
    + reflexivity.
Qed.

(** C5: after any sequence of chunks the silence counter is the sum, added
    up in order from 0, of the durations of the longest run of silent
    chunks at the end of the sequence; a chunk that is not silent leaves it
    at exactly 0, and a silent chunk never makes it smaller. *)
Theorem C5_accumulator_tracks_trailing_silence (chunks : list bytes) (c : bytes) :
  current_silence_accumulated_duration (session_after chunks)
  = total_duration (trailing_silent_run chunks) /\
  (if is_silent c
   then PrimFloat.leb
          (current_silence_accumulated_duration (session_after chunks))
          (current_silence_accumulated_duration (session_after (chunks ++ [c])))
        = true
   else current_silence_accumulated_duration (session_after (chunks ++ [c]))
        = 0%float).
Proof.
  split; [apply accumulator_is_trailing_sum|].
  rewrite session_after_snoc. unfold next_session.
  cbn [current_silence_accumulated_duration].
  destruct (is_silent c); [|reflexivity].
  apply Binary64.add_nonneg_mono;
    [apply session_after_nonneg | apply chunk_duration_nonneg].
Qed.

(** ** While relaying, the counter is below the maximum *)

Lemma relaying_below_max (chunks : list bytes) :
  relaying_audio (session_after chunks) = true ->
  PrimFloat.ltb (current_silence_accumulated_duration (session_after chunks))
    MAX_SILENCE_SECONDS = true.
Proof.
  destruct chunks as [| c chunks _] using rev_ind; [reflexivity|].
  pose proof (session_after_nonneg (chunks ++ [c])) as Hn.
  rewrite session_after_snoc in *. revert Hn. unfold next_session.
  cbn [current_silence_accumulated_duration relaying_audio].
  destruct (is_silent c); [|reflexivity].
  destruct (PrimFloat.leb MAX_SILENCE_SECONDS _) eqn:E; [discriminate|].
  intros Hn _. apply Binary64.not_leb_ltb_one; assumption.
Qed.

Lemma reaching_max_withholds (chunks : list bytes) (c : bytes) :
  is_silent c = true ->
  PrimFloat.leb MAX_SILENCE_SECONDS
    (PrimFloat.add (current_silence_accumulated_duration (session_after chunks))
       (chunk_duration c)) = true ->
  relaying_audio (session_after (chunks ++ [c])) = false /\
  relayed (chunks ++ [c]) = relayed chunks.
Proof.
  intros Hs Hge.
  assert (Hr : relaying_audio (session_after (chunks ++ [c])) = false).
  { rewrite session_after_snoc. unfold next_session. cbn [relaying_audio].
    now rewrite Hs, Hge. }
  split; [exact Hr|]. rewrite relayed_snoc, Hr. apply app_nil_r.
Qed.

(** C10: after any sequence of binary chunks from the initial state, a
    relaying gate has a silence counter strictly below
    [MAX_SILENCE_SECONDS]; so a silent chunk that brings the counter to the
    maximum or above leaves the gate paused and is itself withheld. *)
Theorem C10_relaying_implies_below_max (chunks : list bytes) (c : bytes) :
  (relaying_audio (session_after chunks) = true ->
   PrimFloat.ltb (current_silence_accumulated_duration (session_after chunks))
     MAX_SILENCE_SECONDS = true) /\
  (is_silent c = true ->
   PrimFloat.leb MAX_SILENCE_SECONDS
     (PrimFloat.add (current_silence_accumulated_duration (session_after chunks))
        (chunk_duration c)) = true ->
   relaying_audio (session_after (chunks ++ [c])) = false /\
   relayed (chunks ++ [c]) = relayed chunks).
Proof.
  split; [apply relaying_below_max | apply reaching_max_withholds].
Qed.

Lemma C10_relaying_implies_below_max_witness :
  PrimFloat.ltb (current_silence_accumulated_duration (session_after []))
    MAX_SILENCE_SECONDS = true /\
  relaying_audio (session_after ([] ++ [one_second_of_zeros])) = false.
Proof.
  pose proof (C10_relaying_implies_below_max [] one_second_of_zeros) as [H1 H2].
  split.
  - apply H1. reflexivity.
  - refine (proj1 (H2 _ _)).
    + vm_compute. reflexivity.
    + vm_compute. reflexivity.
Defined.

(** ** The first chunk of a session *)

Lemma all_from_spec (P : Z -> bool) (n : nat) :
  forall z, all_from P n z = true ->
  forall k, z <= k < z + Z.of_nat n -> P k = true.
Proof.
  induction n as [| n IH]; intros z H k Hk; [lia|].
  cbn [all_from] in H. apply andb_true_iff in H as [Hz Hrest].
  destruct (Z.eq_dec k z) as [-> | Hne]; [exact Hz|].
  apply (IH (z + 1) Hrest). lia.
Qed.

Lemma below_one_second_checked :
  all_from shorter_than_max_silence (Z.to_nat BYTES_PER_SECOND) 0 = true.
Proof. vm_compute. reflexivity. Qed.

(** A chunk of fewer than 32000 bytes lasts less than the maximum
    silence. *)
Lemma short_chunk_below_max (c : bytes) :
  len c < BYTES_PER_SECOND ->
  PrimFloat.leb MAX_SILENCE_SECONDS
    (PrimFloat.add 0%float (chunk_duration c)) = false.
Proof.
  intro H. pose proof (len_nonneg c) as Hl.
  pose proof (all_from_spec _ _ _ below_one_second_checked (len c)) as Hc.
  unfold shorter_than_max_silence in Hc. apply negb_true_iff. apply Hc.
  rewrite Z2Nat.id by (unfold BYTES_PER_SECOND, SAMPLE_RATE, BYTES_PER_SAMPLE, CHANNELS, SAMPLE_WIDTH; lia).
  lia.
Qed.

Lemma first_chunk_relayed (c : bytes) :
  relayed [c]
  = if is_silent c
       && PrimFloat.leb MAX_SILENCE_SECONDS
            (PrimFloat.add 0%float (chunk_duration c))
    then [] else [c].
Proof.
  rewrite relayed_one. unfold next_session.
  cbn [relaying_audio current_silence_accumulated_duration initial_session].
  destruct (is_silent c); [|reflexivity].
  destruct (PrimFloat.leb _ _); reflexivity.
Qed.

Lemma one_second_of_zeros_silent :
  is_silent one_second_of_zeros = true /\
  chunk_duration one_second_of_zeros = 1%float.
Proof. split; vm_compute; reflexivity. Qed.

(** C2 (as amended): the first chunk of a session is relayed unless it is
    classified silent and its own duration already reaches
    [MAX_SILENCE_SECONDS]; in particular a first chunk that is not silent
    and a first chunk of fewer than 32000 bytes (one second) are relayed. *)
Theorem C2_first_chunk (c : bytes) :
  relayed [c]
  = (if is_silent c
        && PrimFloat.leb MAX_SILENCE_SECONDS
             (PrimFloat.add 0%float (chunk_duration c))
     then [] else [c]) /\
  (is_silent c = false -> relayed [c] = [c]) /\
  (len c < BYTES_PER_SECOND -> relayed [c] = [c]).
Proof.
  rewrite first_chunk_relayed. split; [reflexivity|]. split.
  - intros ->. reflexivity.
  - intro H. rewrite (short_chunk_below_max c H), andb_false_r. reflexivity.
Qed.

Lemma C2_first_chunk_witness :
  relayed [loud_chunk] = [loud_chunk] /\ relayed [["000"%byte]] = [["000"%byte]].
Proof.
  split.
  - refine (proj1 (proj2 (C2_first_chunk loud_chunk)) _). vm_compute. reflexivity.
  - refine (proj2 (proj2 (C2_first_chunk ["000"%byte])) _). vm_compute. reflexivity.
Defined.

(** C2 as stated fails: a first chunk holding one second of zero samples
    is silent and brings the counter to 1.0 s at once, so it is not
    relayed. *)
Lemma C2_counterexample :
  relayed [one_second_of_zeros] = [] /\
  relayed [one_second_of_zeros] <> [one_second_of_zeros].
Proof.
  destruct one_second_of_zeros_silent as [Hs Hd].
  assert (H : relayed [one_second_of_zeros] = []).
  { rewrite first_chunk_relayed, Hs, Hd. reflexivity. }
  split; [exact H|]. rewrite H. discriminate.
Qed.

(** ** Order preservation *)

Lemma combine_snoc {A B : Type} (l : list A) (l' : list B) (a : A) (b : B) :
  List.length l = List.length l' ->
  combine (l ++ [a]) (l' ++ [b]) = combine l l' ++ [(a, b)].
Proof.
  revert l'. induction l as [| x l IH]; intros [| y l'] H; try discriminate.
  - reflexivity.
  - cbn. f_equal. apply IH. now injection H.
Qed.

Lemma firstn_S_snoc (chunks : list bytes) (c : bytes) (i : nat) :
  (i < List.length chunks)%nat ->
  firstn (S i) (chunks ++ [c]) = firstn (S i) chunks.
Proof.
  intro H. rewrite firstn_app.
  replace (S i - List.length chunks)%nat with 0%nat by lia.
  cbn [firstn]. apply app_nil_r.
Qed.

Lemma firstn_S_nth_error {A : Type} (l : list A) (i : nat) (a : A) :
  nth_error l i = Some a -> firstn (S i) l = firstn i l ++ [a].
Proof.
  revert i. induction l as [| x l IH]; intros [| i] H; try discriminate.
  - injection H as ->. reflexivity.
  - cbn [firstn app]. f_equal. apply IH. exact H.
Qed.

Lemma kept_chunks_snoc (chunks : list bytes) (c : bytes) :
  kept_chunks (chunks ++ [c])
  = kept_chunks chunks
    ++ (if relaying_audio (session_after (chunks ++ [c])) then [c] else []).
Proof.
  unfold kept_chunks.
  rewrite length_app. cbn [List.length]. rewrite seq_app. cbn [seq Nat.add].
  rewrite combine_snoc by apply length_seq.
  rewrite filter_app, map_app. f_equal.
  - f_equal. apply filter_ext_in. intros [i d] Hin. cbn [fst].
    apply in_combine_l in Hin. apply in_seq in Hin.
    unfold relaying_after_chunk. rewrite firstn_S_snoc by lia. reflexivity.
  - cbn [filter fst]. unfold relaying_after_chunk.
    replace (firstn (S (List.length chunks)) (chunks ++ [c])) with (chunks ++ [c]).
    + destruct (relaying_audio _); reflexivity.
    + symmetry. apply firstn_all2. rewrite length_app. cbn [List.length]. lia.
Qed.

Lemma relayed_is_kept (chunks : list bytes) : relayed chunks = kept_chunks chunks.
Proof.
  induction chunks as [| c chunks IH] using rev_ind.
  - reflexivity.
  - rewrite relayed_snoc, kept_chunks_snoc, IH. reflexivity.
Qed.

Lemma withheld_chunk_is_silent (chunks : list bytes) (i : nat) (c : bytes) :
  nth_error chunks i = Some c ->
  relaying_after_chunk chunks i = false -> is_silent c = true.
Proof.
  intros Hn. unfold relaying_after_chunk.
  rewrite (firstn_S_nth_error _ _ _ Hn), session_after_snoc.
  unfold next_session. cbn [relaying_audio].
  destruct (is_silent c); [reflexivity | discriminate].
Qed.

(** C3: the chunks relayed, in send order, are the chunks received with
    exactly those left out after which the gate is paused, in their
    original order and unchanged; every chunk left out is a silent one. *)
Theorem C3_relayed_is_subsequence (chunks : list bytes) :
  relayed chunks = kept_chunks chunks /\
  (forall i c, nth_error chunks i = Some c ->
     relaying_after_chunk chunks i = false -> is_silent c = true).
Proof.
  split; [apply relayed_is_kept | apply withheld_chunk_is_silent].
Qed.

(** * Buffering and teardown *)

Section Teardown.

Variable client_address : string.

(** One message, whatever happens to it: it is recorded as delivered, a
    binary payload is appended to the buffer, no file is written, and an
    exception can only come from the send. *)
Lemma handle_message_effects (fr : frame) (ss : session) (w : world) :
  forall ss' w' r,
    handle_message client_address fr ss w = (ss', w', r) ->
    received w' = received w ++ [payload fr] /\
    pcm_data_chunks ss' = pcm_data_chunks ss ++ binary_payloads [payload fr] /\
    files w' = files w /\
    (r = None \/ r = send_raises fr).
Proof.
  destruct fr as [[b | s] sr]; unfold handle_message; cbn [payload send_raises].
  - rewrite is_chunk_silent_configured. unfold silence_detection.
    cbn [pcm_data_chunks current_silence_accumulated_duration relaying_audio].
    destruct (is_silent b); [destruct (PrimFloat.leb _ _)|];
      destruct (relaying_audio ss) eqn:E; cbn [negb relaying_audio]; rewrite ?E;
      try destruct sr as [e |];
      intros ss' w' r H; injection H as <- <- <-; cbn; auto.
  - intros ss' w' r H. injection H as <- <- <-. cbn. rewrite app_nil_r. auto.
Qed.

(** The loop as a whole: the buffer grows by the binary payloads among the
    messages delivered, in order, and no file is written. *)
Lemma receive_loop_effects (frames : list frame) (closing : option raised) :
  forall ss w ss' w' r,
    receive_loop client_address frames closing ss w = (ss', w', r) ->
    exists delivered,
      received w' = received w ++ delivered /\
      pcm_data_chunks ss' = pcm_data_chunks ss ++ binary_payloads delivered /\
      files w' = files w.
Proof.
  induction frames as [| fr frames IH]; intros ss w ss' w' r H.
  - cbn in H. injection H as <- <- <-. exists []. rewrite !app_nil_r. auto.
  - cbn [receive_loop] in H.
    destruct (handle_message client_address fr ss w) as [[ss1 w1] r1] eqn:E.
    destruct (handle_message_effects fr ss w _ _ _ E) as (Hr & Hp & Hf & _).
    destruct r1 as [e |].
    + injection H as <- <- <-. exists [payload fr]. auto.
    + destruct (IH _ _ _ _ _ H) as (d & Hr' & Hp' & Hf').
      exists (payload fr :: d). rewrite Hr', Hp', Hf', Hr, Hp, Hf.
      rewrite <- !app_assoc. cbn [app binary_payloads].
      repeat split. f_equal. destruct (payload fr); reflexivity.
Qed.

(** An exception leaving the loop is the iterator's or a send's. *)
Lemma receive_loop_raises (frames : list frame) (closing : option raised) :
  forall ss w ss' w' r,
    receive_loop client_address frames closing ss w = (ss', w', r) ->
    r = closing \/ exists fr, In fr frames /\ r = send_raises fr.
Proof.
  induction frames as [| fr frames IH]; intros ss w ss' w' r H.
  - cbn in H. injection H as <- <- <-. now left.
  - cbn [receive_loop] in H.
    destruct (handle_message client_address fr ss w) as [[ss1 w1] r1] eqn:E.
    destruct (handle_message_effects fr ss w _ _ _ E) as (_ & _ & _ & Hr).
    destruct r1 as [e |].
    + injection H as <- <- <-. right. exists fr. split; [now left|].
      destruct Hr as [Hr | Hr]; [discriminate | exact Hr].
    + destruct (IH _ _ _ _ _ H) as [-> | (fr' & Hin & ->)]; [now left|].
      right. exists fr'. split; [now right | reflexivity].
Qed.

(** When every send succeeds, every message of the connection is
    delivered. *)
Lemma receive_loop_all_delivered (frames : list frame) (closing : option raised) :
  Forall (fun fr => send_raises fr = None) frames ->
  forall ss w ss' w' r,
    receive_loop client_address frames closing ss w = (ss', w', r) ->
    received w' = received w ++ map payload frames.
Proof.
  induction 1 as [| fr frames Hfr _ IH]; intros ss w ss' w' r H.
  - cbn in H. injection H as <- <- <-. now rewrite app_nil_r.
  - cbn [receive_loop] in H.
    destruct (handle_message client_address fr ss w) as [[ss1 w1] r1] eqn:E.
    destruct (handle_message_effects fr ss w _ _ _ E) as (Hr & _ & _ & Hs).
    rewrite Hfr in Hs. assert (r1 = None) as -> by (destruct Hs; assumption).
    rewrite (IH _ _ _ _ _ H), Hr, <- app_assoc. reflexivity.
Qed.

End Teardown.

Lemma delivered_during_app (w w' : world) (delivered : list message) :
  received w' = received w ++ delivered -> delivered_during w w' = delivered.
Proof.
  intro H. unfold delivered_during. rewrite H, skipn_app, skipn_all.
  rewrite Nat.sub_diag. reflexivity.
Qed.

(** What [audio_handler] leaves behind, in terms of the messages that
    were delivered and of the exception [esc] that escapes the [except]
    clauses (a [BaseExc] of the iterator or of a send, if any); neither
    depends on how the write goes. *)
Lemma audio_handler_spec (ws : websocket) (now : datetime) (w : world) :
  exists delivered esc,
    (esc = None \/
     exists name, esc = Some (BaseExc name) /\
       (closes_with ws = esc \/
        exists fr, In fr (incoming ws) /\ send_raises fr = esc)) /\
    (Forall (fun fr => send_raises fr = None) (incoming ws) ->
     delivered = map payload (incoming ws)) /\
    forall wave_error,
      let filename := output_filename (remote_address ws) now in
      let w' := fst (audio_handler ws now wave_error w) in
      received w' = received w ++ delivered /\
      files w'
      = files w
        ++ match binary_payloads delivered, wave_error with
           | _ :: _, None =>
               [(filename,
                  {| nchannels := CHANNELS; sampwidth := SAMPLE_WIDTH;
                     framerate := SAMPLE_RATE;
                     wav_frames := List.concat (binary_payloads delivered) |})]
           | _, _ => []
           end /\
      snd (audio_handler ws now wave_error w)
      = match binary_payloads delivered, wave_error with
        | _ :: _, Some (BaseExc name) => Some (BaseExc name)
        | _, _ => esc
        end /\
      exists before,
        stdout w'
        = before
          ++ match binary_payloads delivered, wave_error with
             | [], _ => [NoAudioData (remote_address ws)]
             | _ :: _, None => [SavedAudio filename]
             | _ :: _, Some (Exc e) => [ErrorWritingWav filename e]
             | _ :: _, Some (BaseExc _) => []
             end.
Proof.
  unfold audio_handler.
  set (w0 := set_connections _ (print _ w)).
  destruct (receive_loop (remote_address ws) (incoming ws) (closes_with ws)
              initial_session w0) as [[ss w1] r] eqn:E.
  destruct (receive_loop_effects _ _ _ _ _ _ _ _ E) as (delivered & Hr & Hp & Hf).
  cbn [pcm_data_chunks initial_session app] in Hp.
  change (received w0) with (received w) in Hr.
  change (files w0) with (files w) in Hf.
  exists delivered,
    (match r with Some (BaseExc name) => Some (BaseExc name) | _ => None end).
  split; [|split].
  - destruct r as [[e | name] |]; [now left | | now left].
    right. exists name. split; [reflexivity|].
    destruct (receive_loop_raises _ _ _ _ _ _ _ _ E) as [H | (fr & Hin & H)];
      [left | right; exists fr]; auto.
  - intro Hall.
    pose proof (receive_loop_all_delivered _ _ _ Hall _ _ _ _ _ E) as Hd.
    change (received w0) with (received w) in Hd.
    rewrite Hr in Hd. now apply app_inv_head in Hd.
  - intro wave_error. cbv zeta.
    unfold finally_block. rewrite Hp.
    destruct r as [[[| | name'] | name] |];
      destruct (binary_payloads delivered) as [| b bs];
      try destruct wave_error as [[e | name''] |];
      destruct (set_mem _ _ _);
      cbn [fst snd files received stdout print set_connections wave_write];
      rewrite ?Hr, ?Hf, ?app_nil_r;
      (split; [reflexivity|]); (split; [reflexivity|]); (split; [reflexivity|]);
      try (eexists; reflexivity);
      try (eexists; rewrite app_nil_r; reflexivity).
Qed.

(** C6: when the write succeeds and at least one binary frame was
    received, the file written at teardown holds the concatenation, in
    order of receipt, of every binary frame delivered during the session,
    relayed or not, under the parameters 1 channel, 2-byte samples,
    16000 Hz; when no send fails these are all the binary frames of the
    connection; and a binary frame is appended to the buffer whatever the
    relay decision and the outcome of the send. *)
Theorem C6_file_holds_every_binary_frame (ws : websocket) (now : datetime) (w : world) :
  let w' := fst (audio_handler ws now None w) in
  (binary_payloads (delivered_during w w') <> [] ->
   files w'
   = files w
     ++ [(output_filename (remote_address ws) now,
           {| nchannels := 1; sampwidth := 2; framerate := 16000;
              wav_frames := List.concat (binary_payloads (delivered_during w w')) |})]) /\
  (Forall (fun fr => send_raises fr = None) (incoming ws) ->
   delivered_during w w' = map payload (incoming ws)) /\
  (forall client_address b sr ss w0,
     pcm_data_chunks
       (fst (fst (handle_message client_address
                    {| payload := Binary b; send_raises := sr |} ss w0)))
     = pcm_data_chunks ss ++ [b]).
Proof.
  cbv zeta.
  destruct (audio_handler_spec ws now w) as (delivered & esc & _ & Hall & H).
  destruct (H None) as (Hr & Hf & _). cbv zeta in Hr, Hf.
  rewrite (delivered_during_app _ _ _ Hr).
  split; [|split].
  - intro Hne. rewrite Hf. destruct (binary_payloads delivered); [contradiction | reflexivity].
  - exact Hall.
  - intros client_address b sr ss w0.
    destruct (handle_message _ _ ss w0) as [[ss' w1] r] eqn:E.
    apply handle_message_effects in E as (_ & Hp & _). exact Hp.
Qed.

Lemma C6_file_holds_every_binary_frame_witness :
  files (fst (audio_handler example_connection example_now None empty_world))
  = [("received_audio/audio_'127.0.0.1' 54321_20240307_090501_000042.wav"%string,
       {| nchannels := 1; sampwidth := 2; framerate := 16000;
          wav_frames := ["001"%byte; "000"%byte; "208"%byte; "007"%byte] |})].
Proof.
  refine (eq_trans
            (proj1 (C6_file_holds_every_binary_frame
                      example_connection example_now empty_world) _) _).
  - vm_compute. discriminate.
  - vm_compute. reflexivity.
Defined.

(** C7: when no binary frame was received, teardown writes no file; and
    when the write raises an error, no file is recorded, the error is
    printed and goes no further: the handler ends as it does when the write
    succeeds, without an exception unless a [BaseExc] came out of the
    message loop. *)
Theorem C7_empty_buffer_and_write_errors (ws : websocket) (now : datetime) (w : world) :
  (forall wave_error,
     let w' := fst (audio_handler ws now wave_error w) in
     binary_payloads (delivered_during w w') = [] ->
     files w' = files w /\
     exists before, stdout w' = before ++ [NoAudioData (remote_address ws)]) /\
  (forall e,
     let w' := fst (audio_handler ws now (Some (Exc e)) w) in
     files w' = files w /\
     snd (audio_handler ws now (Some (Exc e)) w)
     = snd (audio_handler ws now None w) /\
     (only_exceptions ws = true ->
      snd (audio_handler ws now (Some (Exc e)) w) = None) /\
     (binary_payloads (delivered_during w w') <> [] ->
      exists before,
        stdout w'
        = before ++ [ErrorWritingWav (output_filename (remote_address ws) now) e])).
Proof.
  destruct (audio_handler_spec ws now w) as (delivered & esc & Hesc & _ & H).
  split.
  - intros wave_error. destruct (H wave_error) as (Hr & Hf & _ & Ho).
    cbv zeta in *. rewrite (delivered_during_app _ _ _ Hr).
    intro He. rewrite He in Hf, Ho. rewrite app_nil_r in Hf. auto.
  - intro e. destruct (H (Some (Exc e))) as (Hr & Hf & Hs & Ho).
    destruct (H None) as (_ & _ & Hs' & _).
    cbv zeta in *. rewrite (delivered_during_app _ _ _ Hr).
    assert (Hsame : snd (audio_handler ws now (Some (Exc e)) w) = esc).
    { rewrite Hs. destruct (binary_payloads delivered); reflexivity. }
    split; [|split; [|split]].
    + rewrite Hf. destruct (binary_payloads delivered); apply app_nil_r.
    + rewrite Hsame, Hs'. destruct (binary_payloads delivered); reflexivity.
    + intro Honly. rewrite Hsame.
      destruct Hesc as [-> | (name & -> & Hfrom)]; [reflexivity|].
      exfalso. unfold only_exceptions in Honly.
      apply andb_true_iff in Honly as [Hsend Hclose].
      destruct Hfrom as [Hc | (fr & Hin & Hfr)].
      * rewrite Hc in Hclose. discriminate.
      * rewrite forallb_forall in Hsend. specialize (Hsend fr Hin).
        rewrite Hfr in Hsend. discriminate.
    + intro Hne. destruct (binary_payloads delivered); [contradiction | exact Ho].
Qed.

Lemma C7_empty_buffer_and_write_errors_witness :
  files (fst (audio_handler text_only_connection example_now None empty_world)) = [] /\
  snd (audio_handler example_connection example_now
         (Some (Exc (OtherException "OSError"))) empty_world) = None.
Proof.
  pose proof (C7_empty_buffer_and_write_errors text_only_connection example_now empty_world)
    as [H1 _].
  pose proof (C7_empty_buffer_and_write_errors example_connection example_now empty_world)
    as [_ H2].
  split.
  - refine (proj1 (H1 None _)). vm_compute. reflexivity.
  - refine (proj1 (proj2 (proj2 (H2 (OtherException "OSError")))) _).
    vm_compute. reflexivity.
Defined.

(** * The output file name *)

Section Filename.

Local Open Scope string_scope.

Lemma string_length_append (a b : string) :
  String.length (a ++ b) = (String.length a + String.length b)%nat.
Proof. induction a as [| c a IH]; cbn; [reflexivity | now rewrite IH]. Qed.

Lemma append_inj_length (a b c d : string) :
  String.length a = String.length b ->
  a ++ c = b ++ d -> a = b /\ c = d.
Proof.
  revert b. induction a as [| x a IH]; intros [| y b] Hl H; try discriminate.
  - now split.
  - cbn in Hl, H. injection H as -> H. injection Hl as Hl.
    destruct (IH b Hl H) as [-> ->]. now split.
Qed.

Lemma append_cancel_l (a c d : string) : a ++ c = a ++ d -> c = d.
Proof. intro H. now apply (append_inj_length a a c d eq_refl) in H. Qed.

Lemma zero_padded_length (width : nat) (n : Z) :
  String.length (zero_padded width n) = width.
Proof.
  revert n. induction width as [| w IH]; intro n; cbn [zero_padded]; [reflexivity|].
  rewrite string_length_append, IH. cbn. lia.
Qed.

Lemma digit_char_inj (a b : Z) :
  0 <= a < 10 -> 0 <= b < 10 -> digit_char a = digit_char b -> a = b.
Proof.
  intros Ha Hb H. unfold digit_char in H.
  apply (f_equal nat_of_ascii) in H.
  rewrite !nat_ascii_embedding in H by lia. lia.
Qed.

Lemma zero_padded_inj (width : nat) :
  forall n m,
    0 <= n < 10 ^ Z.of_nat width -> 0 <= m < 10 ^ Z.of_nat width ->
    zero_padded width n = zero_padded width m -> n = m.
Proof.
  induction width as [| w IH]; intros n m Hn Hm H.
  - cbn in Hn, Hm. lia.
  - cbn [zero_padded] in H.
    apply append_inj_length in H as [Hhi Hlo];
      [| now rewrite !zero_padded_length].
    injection Hlo as Hlo.
    rewrite Nat2Z.inj_succ, Z.pow_succ_r in Hn, Hm by lia.
    apply digit_char_inj in Hlo; try (apply Z.mod_pos_bound; lia).
    apply IH in Hhi;
      try (split; [apply Z.div_pos; lia | apply Z.div_lt_upper_bound; lia]).
    rewrite (Z.div_mod n 10), (Z.div_mod m 10) by lia. lia.
Qed.

(** The timestamp determines the instant. *)
Lemma strftime_inj (d1 d2 : datetime) :
  valid_datetime d1 -> valid_datetime d2 ->
  strftime d1 = strftime d2 -> d1 = d2.
Proof.
  intros (Y1 & M1 & D1 & h1 & m1 & s1 & u1) (Y2 & M2 & D2 & h2 & m2 & s2 & u2) H.
  unfold strftime in H.
  do 8 (apply append_inj_length in H as [? H];
        [| rewrite ?zero_padded_length; reflexivity]).
  repeat match goal with
         | E : zero_padded _ _ = zero_padded _ _ |- _ =>
             apply zero_padded_inj in E; [| cbn; lia | cbn; lia]
         end.
  destruct d1, d2. cbn in *. congruence.
Qed.

Lemma strftime_length (d : datetime) : String.length (strftime d) = 22%nat.
Proof.
  unfold strftime. rewrite !string_length_append, !zero_padded_length. reflexivity.
Qed.

(** For one remote address, the file name determines the instant. *)
Lemma output_filename_inj (client_address : string) (d1 d2 : datetime) :
  valid_datetime d1 -> valid_datetime d2 ->
  output_filename client_address d1 = output_filename client_address d2 ->
  d1 = d2.
Proof.
  intros V1 V2 H. unfold output_filename, os_path_join in H.
  repeat apply append_cancel_l in H.
  apply append_inj_length in H as [H _]; [| now rewrite !strftime_length].
  now apply strftime_inj.
Qed.

End Filename.

(** C8: two sessions from the same remote address whose creation instants,
    as [datetime.now()] gives them, differ within the same second get
    distinct output file names. *)
Theorem C8_distinct_filenames (client_address : string) (d1 d2 : datetime) :
  valid_datetime d1 -> valid_datetime d2 ->
  same_second d1 d2 -> d1 <> d2 ->
  output_filename client_address d1 <> output_filename client_address d2.
Proof.
  intros V1 V2 _ Hne H. apply Hne.
  exact (output_filename_inj client_address d1 d2 V1 V2 H).
Qed.

Lemma C8_distinct_filenames_witness :
  output_filename "('127.0.0.1', 54321)" example_now
  <> output_filename "('127.0.0.1', 54321)" example_later.
Proof.
  apply (C8_distinct_filenames "('127.0.0.1', 54321)" example_now example_later).
  - unfold valid_datetime. cbn. lia.
  - unfold valid_datetime. cbn. lia.
  - unfold same_second. cbn. repeat split.
  - discriminate.
Defined.

(** * Further properties of the classifiers *)

Lemma fold_max_attained (l : list Z) (m : Z) :
  fold_left (fun m v => Z.max m (Z.abs v)) l m = m \/
  exists v, In v l /\ fold_left (fun m v => Z.max m (Z.abs v)) l m = Z.abs v.
Proof.
  revert m. induction l as [| x l IH]; intro m; cbn [fold_left]; [now left|].
  destruct (IH (Z.max m (Z.abs x))) as [H | (v & Hin & H)].
  - rewrite H. destruct (Z.max_spec m (Z.abs x)) as [[_ ->] | [_ ->]].
    + right. exists x. split; [now left | reflexivity].
    + now left.
  - right. exists v. split; [now right | exact H].
Qed.

Lemma sample_of_range (b0 b1 : byte) : -32768 <= sample_of b0 b1 <= 32767.
Proof.
  unfold sample_of.
  pose proof (Byte.to_N_bounded b0). pose proof (Byte.to_N_bounded b1).
  destruct (Z.ltb_spec (Z.of_N (Byte.to_N b0) + 256 * Z.of_N (Byte.to_N b1)) 32768); lia.
Qed.

Lemma samples_range (c : bytes) (v : Z) :
  In v (samples c) -> -32768 <= v <= 32767.
Proof.
  induction c as [| b | b0 b1 rest IH] using bytes_pair_ind; try contradiction.
  cbn [samples]. intros [<- | H]; [apply sample_of_range | now apply IH].
Qed.

Lemma max_abs_amplitude_bound (c : bytes) : max_abs_amplitude c <= 32768.
Proof.
  unfold max_abs_amplitude.
  destruct (fold_max_attained (samples c) 0) as [-> | (v & Hin & ->)]; [lia|].
  pose proof (samples_range c v Hin). lia.
Qed.

Lemma samples_length (c : bytes) : len (samples c) = len c / SAMPLE_WIDTH.
Proof.
  unfold SAMPLE_WIDTH.
  induction c as [| b | b0 b1 rest IH] using bytes_pair_ind; try reflexivity.
  cbn [samples]. rewrite !len_cons, IH.
  replace (len rest + 1 + 1) with (1 * 2 + len rest) by lia.
  rewrite Z.div_add_l by lia. lia.
Qed.

(** [is_chunk_silent_max_abs] never raises.  Its answer is [True] exactly
    for the empty chunk and for a chunk whose every complete sample has a
    magnitude below the threshold (with threshold 0 or less, only for the
    empty chunk). *)
Theorem max_abs_classifier_decides (c : bytes) (threshold : Z) :
  exists silent,
    is_chunk_silent_max_abs c threshold = Return silent /\
    (silent = true <->
     c = [] \/ (0 < threshold /\ forall v, In v (samples c) -> Z.abs v < threshold)).
Proof.
  rewrite is_chunk_silent_max_abs_eq. eexists. split; [reflexivity|].
  destruct c as [| b c]; [split; auto|].
  rewrite Z.ltb_lt. split.
  - intro H. right. pose proof (max_abs_amplitude_nonneg (b :: c)).
    split; [lia|]. intros v Hin.
    pose proof (max_abs_amplitude_in _ _ Hin). lia.
  - intros [H | [Ht H]]; [discriminate|].
    unfold max_abs_amplitude.
    destruct (fold_max_attained (samples (b :: c)) 0) as [-> | (v & Hin & ->)];
      [exact Ht | now apply H].
Qed.

(** With a positive threshold, a chunk without a complete sample (empty
    or a single byte) is silent. *)
Theorem max_abs_no_sample_is_silent (c : bytes) (threshold : Z) :
  0 < threshold -> len c < SAMPLE_WIDTH ->
  is_chunk_silent_max_abs c threshold = Return true.
Proof.
  intros Ht Hl. apply classifier_silent_iff_positive; [exact Ht|]. left.
  destruct c as [| b0 [| b1 rest]]; try reflexivity.
  rewrite !len_cons in Hl. pose proof (len_nonneg rest).
  unfold SAMPLE_WIDTH in Hl. lia.
Qed.

Lemma max_abs_no_sample_is_silent_witness :
  is_chunk_silent_max_abs ["255"%byte] 800 = Return true.
Proof.
  apply (max_abs_no_sample_is_silent ["255"%byte] 800).
  - lia.
  - vm_compute. reflexivity.
Defined.

(** With a positive threshold, or on a chunk of at least two bytes, an
    incomplete trailing byte does not change the answer of
    [is_chunk_silent_max_abs]: it is the answer on the chunk cut down to
    its whole samples. *)
Theorem max_abs_ignores_trailing_byte (c : bytes) (threshold : Z) :
  0 < threshold \/ 2 <= len c ->
  is_chunk_silent_max_abs c threshold
  = is_chunk_silent_max_abs (whole_samples_prefix c) threshold.
Proof. apply classifier_ignores_partial_tail. Qed.

Lemma max_abs_ignores_trailing_byte_witness :
  is_chunk_silent_max_abs ["208"%byte; "007"%byte; "255"%byte] 800
  = is_chunk_silent_max_abs ["208"%byte; "007"%byte] 800.
Proof.
  apply (max_abs_ignores_trailing_byte ["208"%byte; "007"%byte; "255"%byte] 800).
  left. lia.
Defined.

(** The comparison is strict: one sample whose magnitude reaches the
    threshold makes the chunk not silent, wherever it is in the chunk. *)
Theorem max_abs_sample_reaching_threshold (c : bytes) (threshold v : Z) :
  In v (samples c) -> threshold <= Z.abs v ->
  is_chunk_silent_max_abs c threshold = Return false.
Proof. apply classifier_sample_at_threshold. Qed.

Lemma max_abs_sample_reaching_threshold_witness :
  is_chunk_silent_max_abs ["000"%byte; "000"%byte; "032"%byte; "003"%byte] 800
  = Return false.
Proof.
  apply (max_abs_sample_reaching_threshold _ 800 800).
  - vm_compute. auto.
  - vm_compute. discriminate.
Defined.

(** A sample magnitude is at most 32768 (the magnitude of -32768), so a
    threshold above 32768 makes every chunk silent. *)
Theorem max_abs_threshold_above_range (c : bytes) (threshold : Z) :
  32768 < threshold -> is_chunk_silent_max_abs c threshold = Return true.
Proof.
  intro H. apply classifier_silent_iff. right.
  pose proof (max_abs_amplitude_bound c). lia.
Qed.

Lemma max_abs_threshold_above_range_witness :
  is_chunk_silent_max_abs ["000"%byte; "128"%byte] 32769 = Return true.
Proof. apply (max_abs_threshold_above_range ["000"%byte; "128"%byte] 32769). lia. Defined.

(** Raising the threshold keeps a silent chunk silent. *)
Theorem max_abs_monotone_in_threshold (c : bytes) (t t' : Z) :
  t <= t' ->
  is_chunk_silent_max_abs c t = Return true ->
  is_chunk_silent_max_abs c t' = Return true.
Proof.
  intros Hle H. apply classifier_silent_iff. apply classifier_silent_iff in H.
  destruct H as [H | H]; [now left | right; lia].
Qed.

Lemma max_abs_monotone_in_threshold_witness :
  is_chunk_silent_max_abs ["050"%byte; "000"%byte] 900 = Return true.
Proof.
  apply (max_abs_monotone_in_threshold ["050"%byte; "000"%byte] 800 900).
  - lia.
  - vm_compute. reflexivity.
Defined.

(** ** The RMS classifier *)

Lemma rms_loop_shift (b0 b1 : byte) (rest : bytes) (l : list nat) (s : float) :
  rms_loop (b0 :: b1 :: rest) (map Z.of_nat (map S l)) s
  = rms_loop rest (map Z.of_nat l) s.
Proof.
  revert s. induction l as [| i l IH]; intro s; [reflexivity|].
  cbn [map rms_loop]. rewrite slice_next_sample.
  destruct (struct_unpack_h _); [apply IH | reflexivity].
Qed.

Lemma rms_loop_samples (c : bytes) :
  forall s,
    rms_loop c (range (len c / SAMPLE_WIDTH)) s
    = Return
        (fold_left
           (fun sum_squares v =>
              PrimFloat.add sum_squares
                (PrimFloat.mul (PrimFloat.div (float_of_Z v) 32767%float)
                   (PrimFloat.div (float_of_Z v) 32767%float)))
           (samples c) s).
Proof.
  induction c as [| b | b0 b1 rest IH] using bytes_pair_ind; intro s.
  - reflexivity.
  - reflexivity.
  - rewrite range_half_len_cons2. cbn [rms_loop].
    rewrite slice_first_sample, struct_unpack_h_pair, rms_loop_shift.
    fold (range (len rest / SAMPLE_WIDTH)). rewrite IH. reflexivity.
Qed.

Lemma is_chunk_silent_rms_eq (c : bytes) (threshold : float) :
  is_chunk_silent_rms c threshold
  = Return (match samples c with
            | [] => true
            | _ :: _ => PrimFloat.ltb (rms_amplitude c) threshold
            end).
Proof.
  destruct c as [| b0 [| b1 rest]]; try reflexivity.
  unfold is_chunk_silent_rms. cbv zeta.
  rewrite rms_loop_samples, <- samples_length.
  assert (Hn : (len (samples (b0 :: b1 :: rest)) =? 0) = false).
  { cbn [samples]. rewrite len_cons. pose proof (len_nonneg (samples rest)).
    apply Z.eqb_neq. lia. }
  rewrite Hn. reflexivity.
Qed.

(** [is_chunk_silent_rms] never raises.  A chunk without a complete
    sample is silent whatever the threshold; otherwise the chunk is silent
    exactly when the root mean square of its samples, each divided by
    32767, is below the threshold; and an incomplete trailing byte never
    changes the answer. *)
Theorem rms_classifier_decides (c : bytes) (threshold : float) :
  is_chunk_silent_rms c threshold
  = Return (match samples c with
            | [] => true
            | _ :: _ => PrimFloat.ltb (rms_amplitude c) threshold
            end) /\
  is_chunk_silent_rms (whole_samples_prefix c) threshold
  = is_chunk_silent_rms c threshold.
Proof.
  split; [apply is_chunk_silent_rms_eq|].
  rewrite !is_chunk_silent_rms_eq.
  unfold rms_amplitude, sum_of_squares. rewrite samples_whole_prefix. reflexivity.
Qed.

(** * Further properties of the relay gate *)

Lemma speech_relayed (chunks : list bytes) (c : bytes) :
  is_silent c = false ->
  relayed (chunks ++ [c]) = relayed chunks ++ [c] /\
  relaying_audio (session_after (chunks ++ [c])) = true /\
  current_silence_accumulated_duration (session_after (chunks ++ [c])) = 0%float.
Proof.
  intro H.
  assert (Hs : session_after (chunks ++ [c])
               = {| pcm_data_chunks := pcm_data_chunks (session_after chunks) ++ [c];
                    current_silence_accumulated_duration := 0%float;
                    relaying_audio := true |}).
  { rewrite session_after_snoc. unfold next_session. now rewrite H. }
  rewrite relayed_snoc, Hs. cbn. auto.
Qed.

(** A chunk that is not silent is always sent back, whatever came before:
    it leaves the handler relaying with the silence counter at 0. *)
Theorem speech_is_always_relayed (chunks : list bytes) (c : bytes) :
  is_silent c = false ->
  relayed (chunks ++ [c]) = relayed chunks ++ [c] /\
  relaying_audio (session_after (chunks ++ [c])) = true /\
  current_silence_accumulated_duration (session_after (chunks ++ [c])) = 0%float.
Proof. apply speech_relayed. Qed.

Lemma speech_is_always_relayed_witness :
  relayed ([[]] ++ [loud_chunk]) = relayed [[]] ++ [loud_chunk].
Proof.
  refine (proj1 (speech_is_always_relayed [[]] loud_chunk _)).
  vm_compute. reflexivity.
Defined.

Lemma relay_decision_eq (chunks : list bytes) (c : bytes) :
  relayed (chunks ++ [c])
  = relayed chunks
    ++ (if negb (is_silent c)
           || (relaying_audio (session_after chunks)
               && negb (PrimFloat.leb MAX_SILENCE_SECONDS
                          (PrimFloat.add
                             (current_silence_accumulated_duration
                                (session_after chunks))
                             (chunk_duration c))))
        then [c] else []).
Proof.
  rewrite relayed_snoc. f_equal.
  rewrite session_after_snoc. unfold next_session. cbn [relaying_audio].
  destruct (is_silent c); cbn [negb orb]; [|reflexivity].
  destruct (PrimFloat.leb _ _); cbn [negb]; rewrite ?andb_false_r, ?andb_true_r;
    reflexivity.
Qed.

(** The relay decision for one more chunk: it is sent back exactly when it
    is not silent, or the handler was relaying and the silence counter with
    this chunk's duration added stays below [MAX_SILENCE_SECONDS]. *)
Theorem relay_decision (chunks : list bytes) (c : bytes) :
  relayed (chunks ++ [c])
  = relayed chunks
    ++ (if negb (is_silent c)
           || (relaying_audio (session_after chunks)
               && negb (PrimFloat.leb MAX_SILENCE_SECONDS
                          (PrimFloat.add
                             (current_silence_accumulated_duration
                                (session_after chunks))
                             (chunk_duration c))))
        then [c] else []).
Proof. apply relay_decision_eq. Qed.

Lemma paused_stays_paused_step (chunks : list bytes) (c : bytes) :
  relaying_audio (session_after chunks) = false -> is_silent c = true ->
  relaying_audio (session_after (chunks ++ [c])) = false /\
  relayed (chunks ++ [c]) = relayed chunks.
Proof.
  intros Hp Hs.
  assert (Hr : relaying_audio (session_after (chunks ++ [c])) = false).
  { rewrite session_after_snoc. unfold next_session. cbn [relaying_audio].
    rewrite Hs, Hp. destruct (PrimFloat.leb _ _); reflexivity. }
  split; [exact Hr|]. rewrite relayed_snoc, Hr. apply app_nil_r.
Qed.

(** Once the relay is paused, any number of silent chunks leaves it paused
    and none of them is sent back. *)
Theorem paused_until_speech (chunks more : list bytes) :
  relaying_audio (session_after chunks) = false ->
  Forall (fun c => is_silent c = true) more ->
  relaying_audio (session_after (chunks ++ more)) = false /\
  relayed (chunks ++ more) = relayed chunks.
Proof.
  intros Hp Hall. induction more as [| c more IH] using rev_ind.
  - rewrite app_nil_r. now split.
  - apply Forall_app in Hall as [Hmore Hc]. inversion Hc as [| ? ? Hs _]; subst.
    destruct (IH Hmore) as [Hp' Hr'].
    rewrite app_assoc.
    destruct (paused_stays_paused_step (chunks ++ more) c Hp' Hs) as [H1 H2].
    split; [exact H1 | now rewrite H2].
Qed.

Lemma paused_until_speech_witness :
  relayed (repeat eighth_second_of_zeros 8 ++ [[]; ["000"%byte; "000"%byte]])
  = relayed (repeat eighth_second_of_zeros 8).
Proof.
  refine (proj2 (paused_until_speech (repeat eighth_second_of_zeros 8)
                   [[]; ["000"%byte; "000"%byte]] _ _)).
  - vm_compute. reflexivity.
  - repeat constructor.
Defined.

(** After a chunk that is not silent, the next chunk is sent back too if
    it is shorter than one second (32000 bytes), silent or not. *)
Theorem chunk_after_speech_is_relayed (chunks : list bytes) (speech c : bytes) :
  is_silent speech = false -> len c < BYTES_PER_SECOND ->
  relayed (chunks ++ [speech; c]) = relayed chunks ++ [speech; c].
Proof.
  intros Hs Hl.
  destruct (speech_relayed chunks speech Hs) as (Hr & Hrel & Hacc).
  change (chunks ++ [speech; c]) with (chunks ++ [speech] ++ [c]).
  rewrite app_assoc, relay_decision_eq, Hr, Hrel, Hacc.
  rewrite (short_chunk_below_max c Hl). cbn [negb andb].
  rewrite orb_true_r, <- app_assoc. reflexivity.
Qed.

Lemma chunk_after_speech_is_relayed_witness :
  relayed ([] ++ [loud_chunk; tenth_second_of_zeros])
  = relayed [] ++ [loud_chunk; tenth_second_of_zeros].
Proof.
  apply (chunk_after_speech_is_relayed [] loud_chunk tenth_second_of_zeros).
  - vm_compute. reflexivity.
  - vm_compute. reflexivity.
Defined.

(** ** Rounding in the silence counter *)

Lemma tenth_second_run (chunks : list bytes) :
  Forall (fun c => is_silent c = true /\ len c = 3200) chunks ->
  forall ss,
    (current_silence_accumulated_duration (fold_left next_session chunks ss),
     relaying_audio (fold_left next_session chunks ss))
    = Nat.iter (List.length chunks)
        (fun gate =>
           let duration := PrimFloat.add (fst gate) (true_div 3200 BYTES_PER_SECOND) in
           (duration,
            if PrimFloat.leb MAX_SILENCE_SECONDS duration then false else snd gate))
        (current_silence_accumulated_duration ss, relaying_audio ss).
Proof.
  induction 1 as [| c chunks [Hs Hl] _ IH]; intro ss; [reflexivity|].
  cbn [fold_left List.length]. rewrite Nat.iter_succ_r, IH. f_equal.
  unfold next_session, chunk_duration.
  cbn [current_silence_accumulated_duration relaying_audio fst snd].
  rewrite Hs, Hl. reflexivity.
Qed.

(** Ten silent chunks of a tenth of a second (3200 bytes) each do not
    pause the relay: 3200 / 32000 is not exact in binary64 and the ten
    durations add up to less than 1.0, so the handler is still relaying
    after one second's worth of silence; an eleventh such chunk pauses
    it. *)
Theorem ten_tenths_of_silence_do_not_pause (chunks : list bytes) (c : bytes) :
  List.length chunks = 10%nat ->
  Forall (fun c => is_silent c = true /\ len c = 3200) chunks ->
  is_silent c = true -> len c = 3200 ->
  relaying_audio (session_after chunks) = true /\
  PrimFloat.ltb (current_silence_accumulated_duration (session_after chunks))
    MAX_SILENCE_SECONDS = true /\
  relaying_audio (session_after (chunks ++ [c])) = false.
Proof.
  intros Hlen Hall Hs Hl.
  pose proof (tenth_second_run chunks Hall initial_session) as H10.
  assert (Hall' : Forall (fun c => is_silent c = true /\ len c = 3200) (chunks ++ [c])).
  { apply Forall_app. split; [exact Hall | now repeat constructor]. }
  pose proof (tenth_second_run (chunks ++ [c]) Hall' initial_session) as H11.
  rewrite length_app, Hlen in H11. rewrite Hlen in H10.
  rewrite <- !session_after_fold in H10, H11.
  set (g10 := Nat.iter 10 _ _) in H10. vm_compute in g10. subst g10.
  set (g11 := Nat.iter (10 + _) _ _) in H11. vm_compute in g11. subst g11.
  remember (session_after chunks) as s10. remember (session_after (chunks ++ [c])) as s11.
  injection H10 as A10 R10. injection H11 as A11 R11.
  rewrite A10, R10, R11. repeat split.
Qed.

Lemma ten_tenths_of_silence_do_not_pause_witness :
  relaying_audio (session_after (repeat tenth_second_of_zeros 10)) = true.
Proof.
  refine (proj1 (ten_tenths_of_silence_do_not_pause
                   (repeat tenth_second_of_zeros 10) tenth_second_of_zeros _ _ _ _)).
  - reflexivity.
  - repeat constructor; vm_compute; reflexivity.
  - vm_compute. reflexivity.
  - vm_compute. reflexivity.
Defined.

(** ** What the gate prints *)

Lemma handle_binary_stdout (client_address : string) (c : bytes) (ss : session) (w : world) :
  exists w',
    handle_message client_address {| payload := Binary c; send_raises := None |} ss w
    = (next_session ss c, w', None) /\
    stdout w'
    = stdout w
      ++ (if relaying_audio ss && negb (relaying_audio (next_session ss c))
          then [PausingRelay client_address
                  (current_silence_accumulated_duration (next_session ss c))]
          else if negb (relaying_audio ss) && relaying_audio (next_session ss c)
               then [ResumingRelay client_address]
               else []).
Proof.
  unfold handle_message. cbn [payload send_raises].
  rewrite is_chunk_silent_configured.
  unfold silence_detection, next_session, chunk_duration.
  cbn [pcm_data_chunks current_silence_accumulated_duration relaying_audio].
  destruct (is_silent c).
  - destruct (PrimFloat.leb _ _).
    + destruct (relaying_audio ss);
        cbn [relaying_audio]; eexists; (split; [reflexivity|]); cbn;
        rewrite ?app_nil_r; auto.
    + destruct (relaying_audio ss) eqn:E; cbn [relaying_audio]; rewrite ?E;
        eexists; (split; [reflexivity|]); cbn; rewrite ?app_nil_r; auto.
  - destruct (relaying_audio ss); cbn [negb relaying_audio];
      eexists; (split; [reflexivity|]); cbn; rewrite ?app_nil_r; auto.
Qed.

Lemma printed_snoc (chunks : list bytes) (c : bytes) :
  printed (chunks ++ [c])
  = printed chunks
    ++ (if relaying_audio (session_after chunks)
           && negb (relaying_audio (session_after (chunks ++ [c])))
        then [PausingRelay "client"
                (current_silence_accumulated_duration (session_after (chunks ++ [c])))]
        else if negb (relaying_audio (session_after chunks))
                && relaying_audio (session_after (chunks ++ [c]))
             then [ResumingRelay "client"]
             else []).
Proof.
  rewrite session_after_snoc.
  unfold printed, session_after, run_chunks.
  destruct (receive_loop_binary "client" chunks initial_session empty_world)
    as (ss1 & w1 & H1).
  unfold binary_frames. rewrite map_app.
  rewrite (receive_loop_app _ _ _ None _ _ _ _ H1).
  fold (binary_frames chunks). rewrite H1.
  cbn [map receive_loop fst snd].
  destruct (handle_binary_stdout "client" c ss1 w1) as (w2 & -> & Hs).
  cbn [fst snd]. exact Hs.
Qed.

(** On a run of binary chunks the handler prints one line each time the
    relay goes from on to off and one each time it goes from off to on, and
    nothing else: there are as many pause lines as resume lines while it is
    relaying, and one more while it is paused. *)
Theorem pause_and_resume_lines_alternate (chunks : list bytes) :
  Forall (fun l => is_pause_line l || is_resume_line l = true) (printed chunks) /\
  count_lines is_pause_line (printed chunks)
  = (count_lines is_resume_line (printed chunks)
     + if relaying_audio (session_after chunks) then 0 else 1)%nat.
Proof.
  unfold count_lines.
  induction chunks as [| c chunks [IHall IHcount]] using rev_ind.
  - split; [constructor | reflexivity].
  - rewrite printed_snoc.
    destruct (relaying_audio (session_after chunks));
      destruct (relaying_audio (session_after (chunks ++ [c])));
      cbn [andb negb]; rewrite ?app_nil_r; (split; [|]);
      rewrite ?filter_app, ?length_app; cbn [filter is_pause_line is_resume_line List.length];
      try (apply Forall_app; split; [assumption | repeat constructor]);
      try assumption; lia.
Qed.

(** * Further properties of the handler *)

Lemma subsequence_refl {A : Type} (l : list A) : subsequence l l.
Proof. induction l; constructor; assumption. Qed.

Lemma subsequence_nil_l {A : Type} (l : list A) : subsequence [] l.
Proof. induction l; constructor; assumption. Qed.

Lemma subsequence_app {A : Type} (a b c d : list A) :
  subsequence a c -> subsequence b d -> subsequence (a ++ b) (c ++ d).
Proof.
  induction 1 as [| x l1 l2 _ IH | x l1 l2 _ IH]; intro Hbd; cbn [app].
  - exact Hbd.
  - apply subsequence_skip. now apply IH.
  - apply subsequence_keep. now apply IH.
Qed.

Lemma binary_payloads_app (d1 d2 : list message) :
  binary_payloads (d1 ++ d2) = binary_payloads d1 ++ binary_payloads d2.
Proof.
  induction d1 as [| [b | s] d1 IH]; cbn [app binary_payloads];
    [reflexivity | now rewrite IH | exact IH].
Qed.

Lemma handle_message_sent (client_address : string) (fr : frame) (ss : session) (w : world) :
  forall ss' w' r,
    handle_message client_address fr ss w = (ss', w', r) ->
    (exists now_sent,
       sent w' = sent w ++ now_sent /\
       subsequence now_sent (binary_payloads [payload fr])) /\
    CONNECTIONS w' = CONNECTIONS w.
Proof.
  destruct fr as [[b | s] sr]; unfold handle_message; cbn [payload send_raises].
  - rewrite is_chunk_silent_configured. unfold silence_detection.
    cbn [pcm_data_chunks current_silence_accumulated_duration relaying_audio].
    destruct (is_silent b); [destruct (PrimFloat.leb _ _)|];
      destruct (relaying_audio ss) eqn:E; cbn [negb relaying_audio]; rewrite ?E;
      try destruct sr as [e |];
      intros ss' w' r H; injection H as <- <- <-; cbn;
      (split; [|reflexivity]);
      first [ exists [b]; split; [reflexivity | apply subsequence_refl]
            | exists []; split; [now rewrite app_nil_r | apply subsequence_nil_l] ].
  - intros ss' w' r H. injection H as <- <- <-. cbn. split; [|reflexivity].
    exists []. split; [now rewrite app_nil_r | constructor].
Qed.

Lemma receive_loop_sent (client_address : string) (frames : list frame)
    (closing : option raised) :
  forall ss w ss' w' r,
    receive_loop client_address frames closing ss w = (ss', w', r) ->
    (exists delivered now_sent,
       received w' = received w ++ delivered /\
       sent w' = sent w ++ now_sent /\
       subsequence now_sent (binary_payloads delivered)) /\
    CONNECTIONS w' = CONNECTIONS w.
Proof.
  induction frames as [| fr frames IH]; intros ss w ss' w' r H.
  - cbn in H. injection H as <- <- <-. split; [|reflexivity].
    exists [], []. rewrite !app_nil_r. repeat split. constructor.
  - cbn [receive_loop] in H.
    destruct (handle_message client_address fr ss w) as [[ss1 w1] r1] eqn:E.
    destruct (handle_message_effects _ fr ss w _ _ _ E) as (Hr & _).
    destruct (handle_message_sent _ fr ss w _ _ _ E) as ((s1 & Hs & Hsub) & Hc).
    destruct r1 as [e |].
    + injection H as <- <- <-. split; [|exact Hc]. exists [payload fr], s1. auto.
    + destruct (IH _ _ _ _ _ H) as ((d & s2 & Hr' & Hs' & Hsub') & Hc').
      split; [|congruence].
      exists (payload fr :: d), (s1 ++ s2).
      rewrite Hr', Hs', Hr, Hs, <- !app_assoc. repeat split.
      change (payload fr :: d) with ([payload fr] ++ d).
      rewrite binary_payloads_app. now apply subsequence_app.
Qed.

Lemma audio_handler_world (ws : websocket) (now : datetime)
    (wave_error : option raised) (w : world) :
  let w' := fst (audio_handler ws now wave_error w) in
  (exists now_sent,
     sent w' = sent w ++ now_sent /\
     subsequence now_sent (binary_payloads (delivered_during w w'))) /\
  CONNECTIONS w'
  = set_remove Z.eq_dec (ws_id ws) (set_add Z.eq_dec (ws_id ws) (CONNECTIONS w)).
Proof.
  cbv zeta. unfold audio_handler.
  set (w0 := set_connections _ (print _ w)).
  destruct (receive_loop (remote_address ws) (incoming ws) (closes_with ws)
              initial_session w0) as [[ss w1] r] eqn:E.
  destruct (receive_loop_sent _ _ _ _ _ _ _ _ E)
    as ((delivered & now_sent & Hr & Hs & Hsub) & Hc).
  change (received w0) with (received w) in Hr.
  change (sent w0) with (sent w) in Hs.
  change (CONNECTIONS w0)
    with (set_add Z.eq_dec (ws_id ws) (CONNECTIONS w)) in Hc.
  assert (Hmem : set_mem Z.eq_dec (ws_id ws)
                   (set_add Z.eq_dec (ws_id ws) (CONNECTIONS w)) = true).
  { apply set_mem_correct2. apply set_add_intro2. reflexivity. }
  unfold finally_block.
  destruct r as [[[| | name'] | name] |];
    destruct (pcm_data_chunks ss) as [| b bs];
    try destruct wave_error as [[e | name''] |];
    cbn [fst snd CONNECTIONS received sent print set_connections wave_write];
    rewrite ?Hc, ?Hmem;
    cbn [fst snd CONNECTIONS received sent print set_connections wave_write];
    (split; [| reflexivity]);
    exists now_sent; (split; [exact Hs|]);
    unfold delivered_during;
    cbn [fst snd CONNECTIONS received sent print set_connections wave_write];
    rewrite Hr, skipn_app, skipn_all, Nat.sub_diag; exact Hsub.
Qed.

(** Whatever the connection delivers and however the session ends, the
    frames sent back are binary frames that were received, each at most
    once and in the order of receipt; text messages are never sent back. *)
Theorem sent_frames_are_received_frames (ws : websocket) (now : datetime)
    (wave_error : option raised) (w : world) :
  let w' := fst (audio_handler ws now wave_error w) in
  exists now_sent,
    sent w' = sent w ++ now_sent /\
    subsequence now_sent (binary_payloads (delivered_during w w')).
Proof. apply audio_handler_world. Qed.



Lemma receive_loop_ends_as_connection (client_address : string)
    (frames : list frame) (closing : option raised) :
  Forall (fun fr => send_raises fr = None) frames ->
  forall ss w ss' w' r,
    receive_loop client_address frames closing ss w = (ss', w', r) ->
    r = closing.
Proof.
  induction 1 as [| fr frames Hfr _ IH]; intros ss w ss' w' r H.
  - cbn in H. now injection H as <- <- <-.
  - cbn [receive_loop] in H.
    destruct (handle_message client_address fr ss w) as [[ss1 w1] r1] eqn:E.
    destruct (handle_message_effects _ fr ss w _ _ _ E) as (_ & _ & _ & Hs).
    rewrite Hfr in Hs. assert (r1 = None) as -> by (destruct Hs; assumption).
    exact (IH _ _ _ _ _ H).
Qed.

Lemma audio_handler_returns (ws : websocket) (now : datetime)
    (wave_error : option raised) (w : world) :
  only_exceptions ws = true -> is_base_exc wave_error = false ->
  snd (audio_handler ws now wave_error w) = None.
Proof.
  intros Honly Hwave.
  destruct (audio_handler_spec ws now w) as (delivered & esc & Hesc & _ & H).
  destruct (H wave_error) as (_ & _ & -> & _).
  assert (esc = None) as ->.
  { destruct Hesc as [-> | (name & -> & Hfrom)]; [reflexivity|].
    exfalso. unfold only_exceptions in Honly.
    apply andb_true_iff in Honly as [Hsend Hclose].
    destruct Hfrom as [Hc | (fr & Hin & Hfr)].
    - rewrite Hc in Hclose. discriminate.
    - rewrite forallb_forall in Hsend. specialize (Hsend fr Hin).
      rewrite Hfr in Hsend. discriminate. }
  destruct (binary_payloads delivered); [reflexivity|].
  destruct wave_error as [[e | name] |]; [reflexivity | discriminate | reflexivity].
Qed.

(** No subclass of [Exception] leaves the handler: when the iterator and
    the sends raise nothing but such exceptions (a closed connection, any
    other error) and the write raises nothing else either, the handler
    returns normally. *)
Theorem handler_contains_exceptions (ws : websocket) (now : datetime)
    (wave_error : option raised) (w : world) :
  only_exceptions ws = true -> is_base_exc wave_error = false ->
  snd (audio_handler ws now wave_error w) = None.
Proof. apply audio_handler_returns. Qed.

Lemma handler_contains_exceptions_witness :
  snd (audio_handler text_only_connection example_now
         (Some (Exc (OtherException "OSError"))) empty_world) = None.
Proof.
  apply (handler_contains_exceptions text_only_connection example_now).
  - vm_compute. reflexivity.
  - vm_compute. reflexivity.
Defined.

(** An exception that is not a subclass of [Exception] (a cancellation)
    raised by the iterator is not swallowed: when the sends and the write
    succeed, it leaves the handler, after the teardown has written the
    file. *)
Theorem cancellation_propagates_after_teardown (ws : websocket) (now : datetime)
    (w : world) (name : string) :
  closes_with ws = Some (BaseExc name) ->
  Forall (fun fr => send_raises fr = None) (incoming ws) ->
  snd (audio_handler ws now None w) = Some (BaseExc name) /\
  (binary_payloads (map payload (incoming ws)) <> [] ->
   files (fst (audio_handler ws now None w))
   = files w
     ++ [(output_filename (remote_address ws) now,
           {| nchannels := 1; sampwidth := 2; framerate := 16000;
              wav_frames :=
                List.concat (binary_payloads (map payload (incoming ws))) |})]).
Proof.
  intros Hclose Hsends.
  destruct (audio_handler_spec ws now w) as (delivered & esc & _ & Hall & H).
  destruct (H None) as (_ & Hf & _). cbv zeta in Hf.
  rewrite (Hall Hsends) in Hf.
  split.
  - unfold audio_handler.
    destruct (receive_loop (remote_address ws) (incoming ws) (closes_with ws)
                initial_session _) as [[ss w1] r] eqn:E.
    rewrite (receive_loop_ends_as_connection _ _ _ Hsends _ _ _ _ _ E), Hclose.
    unfold finally_block.
    destruct (set_mem _ _ _); destruct (pcm_data_chunks ss); reflexivity.
  - intro Hne. rewrite Hf.
    destruct (binary_payloads (map payload (incoming ws))); [contradiction | reflexivity].
Qed.

Lemma cancellation_propagates_after_teardown_witness :
  snd (audio_handler cancelled_connection example_now None empty_world)
  = Some (BaseExc "CancelledError").
Proof.
  refine (proj1 (cancellation_propagates_after_teardown cancelled_connection
                   example_now empty_world "CancelledError" _ _)).
  - reflexivity.
  - repeat constructor.
Defined.

(** * Further properties of the file name *)

Section Sanitize.

Local Open Scope string_scope.

(** Deleting a character: the others stay, in order. *)
Lemma str_replace_delete (old : ascii) (s : string) :
  chars (str_replace old "" s)
  = filter (fun c => negb (Ascii.eqb c old)) (chars s).
Proof.
  induction s as [| c s IH]; [reflexivity|].
  cbn [str_replace chars list_ascii_of_string filter].
  destruct (Ascii.eqb c old); cbn [negb]; [exact IH|].
  cbn [chars list_ascii_of_string]. f_equal. exact IH.
Qed.

(** Replacing a character by another one. *)
Lemma str_replace_char (old new : ascii) (s : string) :
  chars (str_replace old (String new "") s)
  = map (fun c => if Ascii.eqb c old then new else c) (chars s).
Proof.
  induction s as [| c s IH]; [reflexivity|].
  cbn [str_replace chars list_ascii_of_string map].
  destruct (Ascii.eqb c old); cbn [append chars list_ascii_of_string]; f_equal; exact IH.
Qed.

Lemma filter_twice {A : Type} (f g : A -> bool) (l : list A) :
  filter g (filter f l) = filter (fun x => f x && g x) l.
Proof.
  induction l as [| x l IH]; [reflexivity|].
  cbn [filter]. destruct (f x); cbn [andb filter]; [|exact IH].
  destruct (g x); [f_equal|]; exact IH.
Qed.

Lemma sanitize_chars (client_address : string) :
  chars (sanitize client_address)
  = filter
      (fun c => negb (Ascii.eqb c "(")
                && (negb (Ascii.eqb c ")") && negb (Ascii.eqb c ",")))
      (map (fun c => if Ascii.eqb c ":" then "_"%char else c)
         (chars client_address)).
Proof.
  unfold sanitize.
  rewrite !str_replace_delete, str_replace_char, !filter_twice. reflexivity.
Qed.

Lemma chars_inj (a b : string) : chars a = chars b -> a = b.
Proof.
  intro H. apply (f_equal string_of_list_ascii) in H. unfold chars in H.
  now rewrite !string_of_list_ascii_of_string in H.
Qed.

(** The sanitised address is the address with every [:] turned into [_]
    and every [(], [)] and [,] taken out, the other characters unchanged and
    in order; so it holds none of these four characters, and an address
    without any of them is left as it is. *)
Theorem sanitize_removes_unsafe_chars (client_address : string) :
  chars (sanitize client_address)
  = filter
      (fun c => negb (Ascii.eqb c "(")
                && (negb (Ascii.eqb c ")") && negb (Ascii.eqb c ",")))
      (map (fun c => if Ascii.eqb c ":" then "_"%char else c)
         (chars client_address)) /\
  Forall (fun c => is_unsafe_char c = false) (chars (sanitize client_address)) /\
  (Forall (fun c => is_unsafe_char c = false) (chars client_address) ->
   sanitize client_address = client_address).
Proof.
  split; [apply sanitize_chars|].
  rewrite Forall_forall. split.
  - intros c Hin. rewrite sanitize_chars in Hin.
    apply filter_In in Hin as [Hin Hkeep].
    apply in_map_iff in Hin as (c0 & Hc0 & _).
    unfold is_unsafe_char.
    apply andb_true_iff in Hkeep as [H1 Hkeep]. apply andb_true_iff in Hkeep as [H2 H3].
    apply negb_true_iff in H1, H2, H3. rewrite H1, H2, H3, !orb_false_r.
    destruct (Ascii.eqb_spec c0 ":") as [Heq | Hne]; subst c; [reflexivity|].
    now apply Ascii.eqb_neq.
  - intro Hsafe. apply chars_inj. rewrite sanitize_chars.
    induction (chars client_address) as [| c l IH]; [reflexivity|].
    inversion Hsafe as [| ? ? Hc Hl]; subst.
    unfold is_unsafe_char in Hc.
    apply orb_false_iff in Hc as [Hc H4]. apply orb_false_iff in Hc as [Hc H3].
    apply orb_false_iff in Hc as [H1 H2].
    cbn [map filter]. rewrite H1, H2, H3, H4. cbn [negb andb].
    f_equal. now apply IH.
Qed.

End Sanitize.

Lemma sanitize_removes_unsafe_chars_witness :
  sanitize "127.0.0.1 54321" = "127.0.0.1 54321"%string.
Proof.
  refine (proj2 (proj2 (sanitize_removes_unsafe_chars "127.0.0.1 54321")) _).
  repeat constructor.
Defined.

(** For one remote address, two sessions whose [datetime.now()] differ in
    any field, from the year down to the microsecond, never share a file
    name. *)
Theorem distinct_instants_distinct_filenames (client_address : string)
    (d1 d2 : datetime) :
  valid_datetime d1 -> valid_datetime d2 -> d1 <> d2 ->
  output_filename client_address d1 <> output_filename client_address d2.
Proof.
  intros V1 V2 Hne H. apply Hne.
  exact (output_filename_inj client_address d1 d2 V1 V2 H).
Qed.

Lemma distinct_instants_distinct_filenames_witness :
  output_filename "('127.0.0.1', 54321)" example_now
  <> output_filename "('127.0.0.1', 54321)" example_next_day.
Proof.
  apply (distinct_instants_distinct_filenames "('127.0.0.1', 54321)"
           example_now example_next_day).
  - unfold valid_datetime. cbn. lia.
  - unfold valid_datetime. cbn. lia.
  - discriminate.
Defined.

(** * Text messages and the relay *)

Lemma receive_loop_text_transparent (client_address : string) (frames : list frame) :
  Forall (fun fr => send_raises fr = None) frames ->
  forall w,
    exists w',
      receive_loop client_address frames None initial_session w
      = (session_after (binary_payloads (map payload frames)), w', None) /\
      sent w' = sent w ++ relayed (binary_payloads (map payload frames)).
Proof.
  induction frames as [| fr frames IH] using rev_ind; intros Hall w.
  - exists w. split; [reflexivity|]. cbn [map binary_payloads].
    now rewrite relayed_nil, app_nil_r.
  - apply Forall_app in Hall as [Hframes Hfr]. inversion Hfr as [| ? ? Hsend _]; subst.
    destruct (IH Hframes w) as (w1 & H1 & Hs1).
    rewrite (receive_loop_app _ _ _ None _ _ _ _ H1).
    rewrite map_app, binary_payloads_app. cbn [map receive_loop].
    destruct fr as [[c | s] sr]; cbn [send_raises] in Hsend; subst sr;
      cbn [payload binary_payloads].
    + destruct (handle_binary client_address c
                  (session_after (binary_payloads (map payload frames))) w1)
        as (w2 & -> & Hs2 & _).
      exists w2. rewrite session_after_snoc. split; [reflexivity|].
      rewrite Hs2, Hs1, relayed_snoc, session_after_snoc, <- app_assoc. reflexivity.
    + rewrite app_nil_r. eexists. split; [reflexivity|]. exact Hs1.
Qed.

(** Text messages are transparent to the relay: when no send fails, the
    frames sent back and the gate's final state are those of the run on
    the binary frames alone, wherever text messages come in between. *)
Theorem text_messages_do_not_affect_relay (client_address : string)
    (frames : list frame) (w : world) :
  Forall (fun fr => send_raises fr = None) frames ->
  let result := receive_loop client_address frames None initial_session w in
  fst (fst result) = session_after (binary_payloads (map payload frames)) /\
  sent (snd (fst result)) = sent w ++ relayed (binary_payloads (map payload frames)) /\
  snd result = None.
Proof.
  intros Hall result. subst result.
  destruct (receive_loop_text_transparent client_address frames Hall w)
    as (w' & -> & Hs).
  cbn [fst snd]. auto.
Qed.

Lemma text_messages_do_not_affect_relay_witness :
  sent (snd (fst (receive_loop "peer"
                    [ {| payload := Text "start"; send_raises := None |};
                      {| payload := Binary loud_chunk; send_raises := None |};
                      {| payload := Text "stop"; send_raises := None |} ]
                    None initial_session empty_world)))
  = sent empty_world ++ relayed [loud_chunk].
Proof.
  refine (proj1 (proj2 (text_messages_do_not_affect_relay "peer" _ empty_world _))).
  repeat constructor.
Defined.
